(** * Naive Bayes sentiment classifier: a shallow embedding

    This file embeds [src/data_processing.py] ([build_vocab],
    [bag_of_words]) and [src/naive_bayes.py] (class [NaiveBayes]) and
    proves the properties stated about them.

    Modelling choices:
    - torch float tensors hold exact rationals [Q] during vectorisation
      and training; log-space values (results of [torch.log] and
      everything computed from them) are extended reals [xR], real
      numbers plus [-inf], [+inf] and [nan], with IEEE-style rules
      for the special values.
    - A Python exception is [Err name] where [name] is the class name
      of the exception raised.
    - A Python [dict] from words to indices is a stdpp [gmap string nat];
      the dicts of [NaiveBayes] have keys exactly [0 .. k-1] and are
      lists indexed by the key.
    - [NaiveBayes] objects are records passed explicitly; [fit] returns
      the outcome of the call together with the updated object, since
      the Python method assigns attributes one after the other and an
      exception leaves the earlier assignments in place. *)

From Stdlib Require Import List Arith Lia ZArith QArith Qreals Reals Lra.
From stdpp Require Import base gmap strings.
Import ListNotations.

(* ------------------------------------------------------------------ *)
(** ** Exceptions and the error monad *)

Inductive result (A : Type) : Type :=
| Ok (a : A)
| Err (exc : string).
Arguments Ok {A} a.
Arguments Err {A} exc.

Definition rbind {A B} (m : result A) (k : A -> result B) : result B :=
  match m with
  | Ok a => k a
  | Err e => Err e
  end.

Notation "'let*' x ':=' m 'in' k" := (rbind m (fun x => k))
  (at level 200, x name, m at level 100, k at level 200).

(** Python [lst[i]] for a non-negative index. *)
Definition getitem {A} (l : list A) (i : nat) : result A :=
  match nth_error l i with
  | Some x => Ok x
  | None => Err "IndexError"%string
  end.

(** Python [lst[i] = x] for a non-negative index. *)
Fixpoint setitem {A} (l : list A) (i : nat) (x : A) : result (list A) :=
  match l, i with
  | [], _ => Err "IndexError"%string
  | _ :: r, 0 => Ok (x :: r)
  | y :: r, S j => let* r' := setitem r j x in Ok (y :: r')
  end.

(* ------------------------------------------------------------------ *)
(** ** [src/data_processing.py] *)

Record SentimentExample := {
  words : list string;
  label : Z
}.

(** [build_vocab]: the inner loop over the words of one example, with
    the running [(vocab, index)] pair. *)
Fixpoint build_vocab_words (ws : list string) (vocab : gmap string nat)
    (index : nat) : gmap string nat * nat :=
  match ws with
  | [] => (vocab, index)
  | word :: rest =>
      match vocab !! word with
      | Some _ => build_vocab_words rest vocab index
      | None => build_vocab_words rest (<[word := index]> vocab) (S index)
      end
  end.

Fixpoint build_vocab_loop (examples : list SentimentExample)
    (vocab : gmap string nat) (index : nat) : gmap string nat * nat :=
  match examples with
  | [] => (vocab, index)
  | ex :: rest =>
      let '(vocab', index') := build_vocab_words (words ex) vocab index in
      build_vocab_loop rest vocab' index'
  end.

Definition build_vocab (examples : list SentimentExample) : gmap string nat :=
  fst (build_vocab_loop examples ∅ 0).

(** The loop of [bag_of_words] over the tokens. *)
Fixpoint bow_loop (text : list string) (vocab : gmap string nat)
    (binary : bool) (bow_vector : list Q) : result (list Q) :=
  match text with
  | [] => Ok bow_vector
  | word :: rest =>
      match vocab !! word with
      | Some index =>
          let* v :=
            (if binary then setitem bow_vector index 1%Q
             else let* x := getitem bow_vector index in
                  setitem bow_vector index (x + 1)%Q) in
          bow_loop rest vocab binary v
      | None => bow_loop rest vocab binary bow_vector
      end
  end.

(** [bag_of_words(text, vocab, binary)]: starts from
    [torch.zeros(len(vocab))]. *)
Definition bag_of_words (text : list string) (vocab : gmap string nat)
    (binary : bool) : result (list Q) :=
  bow_loop text vocab binary (repeat 0%Q (size vocab)).

Definition c4_examples : list SentimentExample :=
  [ {| words := ["good"; "movie"]%string; label := 1 |};
    {| words := ["bad"; "movie"]%string; label := 0 |} ].

(* ------------------------------------------------------------------ *)
(** ** [src/naive_bayes.py]: training *)

(** A 2-D float tensor: its rows and its number of columns
    ([shape[1]], meaningful also when there are no rows). *)
Record tensor2 := {
  rows : list (list Q);
  ncols : nat
}.

(** Every row of a tensor has [shape[1]] entries. *)
Definition tensor2_wf (t : tensor2) : Prop :=
  Forall (fun r => length r = ncols t) (rows t).

(** An entry of a float tensor computed by a division: a finite value,
    [inf], [-inf] or [nan]. *)
Inductive xQ : Type :=
| QFin (q : Q)
| QPInf
| QNInf
| QNaN.

(** Float division [a / b] of finite values: dividing by zero gives
    [inf], [-inf] or [nan] according to the sign of [a]. *)
Definition qdiv (a b : Q) : xQ :=
  if Qeq_bool b 0 then
    (if Qlt_le_dec 0 a then QPInf else if Qeq_bool a 0 then QNaN else QNInf)
  else QFin (a / b).

(** The attributes of a [NaiveBayes] object; [None] is Python's [None]. *)
Record NaiveBayes := {
  class_priors : option (list Q);
  conditional_probabilities : option (list (list xQ));
  vocab_size : option nat
}.

(** [NaiveBayes()]: [__init__] sets every attribute to [None]. *)
Definition NaiveBayes_init : NaiveBayes :=
  {| class_priors := None; conditional_probabilities := None;
     vocab_size := None |}.

Definition list_max (l : list nat) : nat := fold_right Nat.max 0 l.

(** [torch.bincount] of a non-negative integer tensor: [max + 1] counts,
    none for an empty tensor. *)
Definition bincount (labels : list nat) : list Z :=
  match labels with
  | [] => []
  | _ => map (fun c => Z.of_nat (count_occ Nat.eq_dec labels c))
             (seq 0 (S (list_max labels)))
  end.

Definition estimate_class_priors (labels : list nat) : list Q :=
  let num_samples := length labels in
  let class_counts := bincount labels in
  map (fun count => inject_Z count / inject_Z (Z.of_nat num_samples))%Q
      class_counts.

(** [torch.max(labels).item()]: fails on an empty tensor. *)
Definition torch_max (labels : list nat) : result nat :=
  match labels with
  | [] => Err "RuntimeError"%string
  | _ => Ok (list_max labels)
  end.

(** [features[mask]] with a boolean mask over the rows. *)
Definition mask_rows (rs : list (list Q)) (mask : list bool)
    : result (list (list Q)) :=
  if Nat.eqb (length mask) (length rs)
  then Ok (map fst (List.filter snd (combine rs mask)))
  else Err "IndexError"%string.

Definition vadd (u v : list Q) : list Q := map (fun '(a, b) => (a + b)%Q) (combine u v).

(** [t.sum(dim=0)] of a tensor with [ncols] columns. *)
Definition sum_dim0 (ncols : nat) (rs : list (list Q)) : list Q :=
  fold_left vadd rs (repeat 0%Q ncols).

(** [t.sum()] of a vector. *)
Definition qsum (v : list Q) : Q := fold_right Qplus 0%Q v.

(** The loop [for c in range(num_classes)] filling [word_counts]. *)
Fixpoint word_counts_loop (features : tensor2) (labels : list nat)
    (cs : list nat) : result (list (list Q)) :=
  match cs with
  | [] => Ok []
  | c :: rest =>
      let* class_features :=
        mask_rows (rows features) (map (fun l => Nat.eqb l c) labels) in
      let* wcs := word_counts_loop features labels rest in
      Ok (sum_dim0 (ncols features) class_features :: wcs)
  end.

(** [(word_counts[c] + delta) / (word_counts[c].sum() + delta * vocab_size)]. *)
Definition smooth (delta : Q) (vocab_size : nat) (wc : list Q) : list xQ :=
  map (fun x => qdiv (x + delta) (qsum wc + delta * inject_Z (Z.of_nat vocab_size)))%Q wc.

Definition estimate_conditional_probabilities (features : tensor2)
    (labels : list nat) (delta : Q) : result (list (list xQ)) :=
  let* m := torch_max labels in
  let num_classes := S m in
  let vocab_size := ncols features in
  let* word_counts := word_counts_loop features labels (seq 0 num_classes) in
  Ok (map (smooth delta vocab_size) word_counts).

(** [fit]: the three assignments in order; an exception raised by
    [estimate_conditional_probabilities] leaves the first two done. *)
Definition fit (self : NaiveBayes) (features : tensor2) (labels : list nat)
    (delta : Q) : result unit * NaiveBayes :=
  let self1 := {| class_priors := Some (estimate_class_priors labels);
                  conditional_probabilities := conditional_probabilities self;
                  vocab_size := vocab_size self |} in
  let self2 := {| class_priors := class_priors self1;
                  conditional_probabilities := conditional_probabilities self1;
                  vocab_size := Some (ncols features) |} in
  match estimate_conditional_probabilities features labels delta with
  | Ok cp => (Ok tt, {| class_priors := class_priors self2;
                         conditional_probabilities := Some cp;
                         vocab_size := vocab_size self2 |})
  | Err e => (Err e, self2)
  end.

Definition c4_features : tensor2 :=
  {| rows := [[1; 1; 0]; [0; 1; 1]]%Q; ncols := 3 |}.

Definition c4_model : NaiveBayes := snd (fit NaiveBayes_init c4_features [1; 0] 1%Q).

(* ------------------------------------------------------------------ *)
(** ** [src/naive_bayes.py]: inference *)

(** Log-space float values: reals, the two infinities and [nan]. *)
Inductive xR : Type :=
| Fin (r : R)
| NInf
| PInf
| NaN.

Definition is_nan (x : xR) : bool :=
  match x with NaN => true | _ => false end.

(** [torch.log] of one entry: [log 0 = -inf], [log] of a negative is [nan]. *)
Definition xlog (q : Q) : xR :=
  if Qlt_le_dec 0 q then Fin (ln (Q2R q))
  else if Qeq_bool q 0 then NInf else NaN.

(** [torch.log] of an entry of the conditional probabilities:
    [log inf = inf], [log (-inf) = log nan = nan]. *)
Definition xlogQ (x : xQ) : xR :=
  match x with
  | QFin q => xlog q
  | QPInf => PInf
  | QNInf | QNaN => NaN
  end.

(** [a * x] for a finite float [a] (an entry of the feature vector). *)
Definition xmul (a : Q) (x : xR) : xR :=
  match x with
  | Fin r => Fin (Q2R a * r)
  | NInf => if Qlt_le_dec 0 a then NInf else if Qeq_bool a 0 then NaN else PInf
  | PInf => if Qlt_le_dec 0 a then PInf else if Qeq_bool a 0 then NaN else NInf
  | NaN => NaN
  end.

Definition xadd (x y : xR) : xR :=
  match x, y with
  | NaN, _ | _, NaN => NaN
  | NInf, PInf | PInf, NInf => NaN
  | NInf, _ | _, NInf => NInf
  | PInf, _ | _, PInf => PInf
  | Fin a, Fin b => Fin (a + b)
  end.

Definition xneg (x : xR) : xR :=
  match x with
  | Fin r => Fin (- r)
  | NInf => PInf
  | PInf => NInf
  | NaN => NaN
  end.

(** [x < y] on non-[nan] values; any comparison with [nan] is false. *)
Definition xlt (x y : xR) : bool :=
  match x, y with
  | Fin a, Fin b => if Rlt_dec a b then true else false
  | NInf, Fin _ | NInf, PInf | Fin _, PInf => true
  | _, _ => false
  end.

(** [torch.sum] of a vector of log-space values. *)
Definition xsum (v : list xR) : xR := fold_right xadd (Fin 0) v.

(** [feature * t] with torch broadcasting of two 1-D tensors: equal
    lengths, or one of the two of length 1. *)
Definition broadcast_mul (feature : list Q) (t : list xR) : result (list xR) :=
  if Nat.eqb (length feature) (length t)
  then Ok (map (fun '(a, x) => xmul a x) (combine feature t))
  else if Nat.eqb (length feature) 1
  then Ok (map (xmul (hd 0%Q feature)) t)
  else if Nat.eqb (length t) 1
  then Ok (map (fun a => xmul a (hd NaN t)) feature)
  else Err "RuntimeError"%string.

(** One iteration of [for c in self.class_priors]. *)
Definition log_posterior (priors : list Q) (cp : list (list xQ))
    (feature : list Q) (c : nat) : result xR :=
  let log_prior := xlog (nth c priors 0%Q) in
  let* cpc := match nth_error cp c with
              | Some v => Ok v
              | None => Err "KeyError"%string
              end in
  let* prod := broadcast_mul feature (map xlogQ cpc) in
  let log_likelihood := xsum prod in
  Ok (xadd log_prior log_likelihood).

Fixpoint log_posteriors_loop (priors : list Q) (cp : list (list xQ))
    (feature : list Q) (cs : list nat) : result (list xR) :=
  match cs with
  | [] => Ok []
  | c :: rest =>
      let* lp := log_posterior priors cp feature c in
      let* lps := log_posteriors_loop priors cp feature rest in
      Ok (lp :: lps)
  end.

(** Python [d[k]] on a dict with keys [0 .. k-1]. *)
Definition dict_get {A} (d : list A) (k : nat) : result A :=
  match nth_error d k with
  | Some x => Ok x
  | None => Err "KeyError"%string
  end.

Definition estimate_class_posteriors (self : NaiveBayes) (feature : list Q)
    : result (list xR) :=
  match conditional_probabilities self, class_priors self with
  | Some cp, Some priors =>
      let* log_posteriors :=
        log_posteriors_loop priors cp feature (seq 0 (length priors)) in
      let* lp0 := dict_get log_posteriors 0 in
      let* lp1 := dict_get log_posteriors 1 in
      Ok [lp0; lp1]
  | _, _ => Err "ValueError"%string
  end.

(** [torch.argmax] of a 1-D tensor: a scan keeping the first maximum;
    [nan] counts as larger than everything, so the first [nan] wins. *)
Fixpoint argmax_loop (v : list xR) (i best : nat) (bv : xR) : nat :=
  match v with
  | [] => best
  | x :: rest =>
      let take := match bv, x with
                  | NaN, _ => false
                  | _, NaN => true
                  | _, _ => xlt bv x
                  end in
      if take then argmax_loop rest (S i) i x
      else argmax_loop rest (S i) best bv
  end.

Definition torch_argmax (v : list xR) : result nat :=
  match v with
  | [] => Err "RuntimeError"%string
  | x :: rest => Ok (argmax_loop rest 1 0 x)
  end.

(** Truthiness of a Python attribute holding [None] or a dict. *)
Definition truthy {A} (d : option (list A)) : bool :=
  match d with
  | Some (_ :: _) => true
  | _ => false
  end.

Definition predict (self : NaiveBayes) (feature : list Q) : result nat :=
  if negb (truthy (class_priors self)) || negb (truthy (conditional_probabilities self))
  then Err "Exception"%string
  else
    let* log_posteriors := estimate_class_posteriors self feature in
    torch_argmax log_posteriors.

(** [torch.exp] on log-space values. *)
Definition xexp (x : xR) : xR :=
  match x with
  | Fin r => Fin (exp r)
  | NInf => Fin 0
  | PInf => PInf
  | NaN => NaN
  end.

(** Maximum propagating [nan], as [torch.max]. *)
Definition xmax (x y : xR) : xR :=
  if is_nan x || is_nan y then NaN else if xlt x y then y else x.

(** Float division [x / y]. *)
Definition xdiv (x y : xR) : xR :=
  match x, y with
  | NaN, _ | _, NaN => NaN
  | Fin a, Fin b =>
      if Req_EM_T b 0 then
        (if Rlt_dec 0 a then PInf else if Rlt_dec a 0 then NInf else NaN)
      else Fin (a / b)
  | Fin _, (PInf | NInf) => Fin 0
  | (PInf | NInf), (PInf | NInf) => NaN
  | PInf, Fin b => if Rlt_dec b 0 then NInf else PInf
  | NInf, Fin b => if Rlt_dec b 0 then PInf else NInf
  end.

(** [torch.nn.functional.softmax(v, dim=0)]: [exp (v - max v)] divided
    by its sum. *)
Definition softmax (v : list xR) : list xR :=
  let m := fold_left xmax (tl v) (hd NaN v) in
  let e := map (fun x => xexp (xadd x (xneg m))) v in
  let s := xsum e in
  map (fun ei => xdiv ei s) e.

Definition predict_proba (self : NaiveBayes) (feature : list Q)
    : result (list xR) :=
  if negb (truthy (class_priors self)) || negb (truthy (conditional_probabilities self))
  then Err "Exception"%string
  else
    let* log_posteriors := estimate_class_posteriors self feature in
    Ok (softmax log_posteriors).

(* ------------------------------------------------------------------ *)
(** ** Notions of the specification *)

(** A vocabulary as the data model describes it (and as [build_vocab]
    produces it): distinct words get distinct indices below its size. *)
Definition vocab_wf (vocab : gmap string nat) : Prop :=
  (forall t i, vocab !! t = Some i -> i < size vocab) /\
  (forall t1 t2 i, vocab !! t1 = Some i -> vocab !! t2 = Some i -> t1 = t2).

(** Whether a token is a key of the vocabulary. *)
Definition in_vocab (vocab : gmap string nat) (t : string) : bool :=
  match vocab !! t with Some _ => true | None => false end.

(** The rows of the training matrix whose label is [c]. *)
Definition class_rows (features : tensor2) (labels : list nat) (c : nat)
    : list (list Q) :=
  map fst (List.filter (fun '(_, l) => Nat.eqb l c) (combine (rows features) labels)).

(** [count(c, w)]: the sum of column [w] over the rows labelled [c]. *)
Definition count_cw (features : tensor2) (labels : list nat) (c w : nat) : Q :=
  qsum (map (fun r => nth w r 0%Q) (class_rows features labels c)).

(** [sum_w count(c, w)] over the vocabulary. *)
Definition count_c (features : tensor2) (labels : list nat) (c : nat) : Q :=
  qsum (map (count_cw features labels c) (seq 0 (ncols features))).

(** Every entry of the training matrix is non-negative, as for the
    bag-of-words feature vectors of the data model. *)
Definition features_nonneg (features : tensor2) : Prop :=
  Forall (Forall (fun x => 0 <= x)%Q) (rows features).

(** [x <= y] on log-space values that are not [nan]. *)
Definition xle (x y : xR) : bool := negb (xlt y x).

(** The model a successful [fit] leaves. *)
Definition trained_model (F : tensor2) (labels : list nat) (delta : Q) : NaiveBayes :=
  {| class_priors := Some (estimate_class_priors labels);
     conditional_probabilities :=
       Some (map (smooth delta (ncols F))
                 (map (fun c => sum_dim0 (ncols F) (class_rows F labels c))
                      (seq 0 (S (list_max labels)))));
     vocab_size := Some (ncols F) |}.

(** The invariant of the [torch.argmax] scan after the prefix [l]. *)
Definition argmax_inv (l : list xR) (best : nat) (bv : xR) : Prop :=
  best < length l /\ nth best l NaN = bv /\
  (is_nan bv = true -> forall j, j < best -> is_nan (nth j l NaN) = false) /\
  (is_nan bv = false ->
     (forall j, j < length l -> is_nan (nth j l NaN) = false /\ xlt bv (nth j l NaN) = false) /\
     (forall j, j < best -> xlt (nth j l NaN) bv = true)).

(** A natural number as a rational (a float32 count). *)
Definition injn (n : nat) : Q := inject_Z (Z.of_nat n).

(* ------------------------------------------------------------------ *)
(** ** [src/data_processing.py]: [read_sentiment_examples] *)

(** A line of text as Python decodes it: its code points. The input
    file is the list of the lines [for line in f] yields (each with its
    line terminator); opening and decoding the file are not modelled. *)
Definition pystr := list Z.

(** [str.isspace] on one code point (the characters [str.strip()]
    removes). *)
Definition py_isspace (c : Z) : bool :=
  ((9 <=? c) && (c <=? 13))%Z || ((28 <=? c) && (c <=? 32))%Z ||
  (c =? 133)%Z || (c =? 160)%Z || (c =? 5760)%Z ||
  ((8192 <=? c) && (c <=? 8202))%Z || (c =? 8232)%Z || (c =? 8233)%Z ||
  (c =? 8239)%Z || (c =? 8287)%Z || (c =? 12288)%Z.

Fixpoint py_lstrip (s : pystr) : pystr :=
  match s with
  | [] => []
  | c :: r => if py_isspace c then py_lstrip r else s
  end.

(** [s.strip()]. *)
Definition py_strip (s : pystr) : pystr := rev (py_lstrip (rev (py_lstrip s))).

(** [s.split(sep)] for a one-character separator: the pieces between
    the separators, empty ones included. *)
Definition py_split (sep : Z) (s : pystr) : list pystr :=
  fold_right (fun c acc =>
                if (c =? sep)%Z then [] :: acc
                else match acc with
                     | cur :: r => (c :: cur) :: r
                     | [] => [[c]]
                     end) [[]] s.

(** The two messages [read_sentiment_examples] prints. *)
Inductive skip_message :=
| MalformedLine (line : pystr)
| InvalidLabel (line : pystr).

Section ReadSentimentExamples.

(** [utils.tokenize] and the built-in [int] on strings, which the
    repository does not define; [py_int s = None] is the [ValueError]
    of [int(s)]. *)
Variable tokenize : pystr -> list string.
Variable py_int : pystr -> option Z.

(** The loop over the lines, with the list of examples and the
    messages printed so far. *)
Fixpoint read_loop (lines : list pystr) (examples : list SentimentExample)
    (printed : list skip_message) : list SentimentExample * list skip_message :=
  match lines with
  | [] => (examples, printed)
  | line0 :: rest =>
      let line := py_strip line0 in
      match line with
      | [] => read_loop rest examples printed
      | _ :: _ =>
          match py_split 9 line with
          | [text; label_str] =>
              match py_int label_str with
              | Some label =>
                  read_loop rest
                    (examples ++ [{| words := tokenize text; label := label |}]) printed
              | None => read_loop rest examples (printed ++ [InvalidLabel line])
              end
          | _ => read_loop rest examples (printed ++ [MalformedLine line])
          end
      end
  end.

(** [read_sentiment_examples(infile)]: the examples it returns and the
    messages it prints. *)
Definition read_sentiment_examples (lines : list pystr)
    : list SentimentExample * list skip_message :=
  read_loop lines [] [].

End ReadSentimentExamples.

(** Whether a line is blank once stripped. *)
Definition blank_line (line : pystr) : bool :=
  match py_strip line with [] => true | _ => false end.

(** The words of a list of examples, in order. *)
Definition all_words (examples : list SentimentExample) : list string :=
  concat (map words examples).

(** The distinct words of a sequence in the order of their first
    occurrence, after those of [seen]. *)
Fixpoint first_occurrences_acc (seen : list string) (ws : list string) : list string :=
  match ws with
  | [] => seen
  | w :: r =>
      if in_dec String.string_dec w seen then first_occurrences_acc seen r
      else first_occurrences_acc (seen ++ [w]) r
  end.

Definition first_occurrences (ws : list string) : list string :=
  first_occurrences_acc [] ws.

(** The number of tokens of [text] the vocabulary maps to index [i]. *)
Definition count_index (vocab : gmap string nat) (text : list string) (i : nat) : nat :=
  length (List.filter (fun t => bool_decide (vocab !! t = Some i)) text).

(** Every token of [text] found in the vocabulary has an index below
    [len(vocab)]. *)
Definition indices_in_range (vocab : gmap string nat) (text : list string) : Prop :=
  forall t i, In t text -> vocab !! t = Some i -> i < size vocab.

(** The inverse of [py_split]: the pieces joined by the separator. *)
Fixpoint join_sep (sep : Z) (ps : list pystr) : pystr :=
  match ps with
  | [] => []
  | [p] => p
  | p :: rest => p ++ sep :: join_sep sep rest
  end.

(** What a message printed for a line says about it. *)
Definition message_justified (py_int : pystr -> option Z) (lines : list pystr)
    (m : skip_message) : Prop :=
  match m with
  | MalformedLine l =>
      exists line, In line lines /\ l = py_strip line /\ l <> [] /\
      ~ exists text label_str, l = text ++ 9%Z :: label_str /\ ~ In 9%Z text /\ ~ In 9%Z label_str
  | InvalidLabel l =>
      exists line text label_str, In line lines /\ l = py_strip line /\
      l = text ++ 9%Z :: label_str /\ ~ In 9%Z text /\ ~ In 9%Z label_str /\
      py_int label_str = None
  end.

(** Row [c] of the conditional probabilities a successful [fit] stores. *)
Definition class_probs (F : tensor2) (labels : list nat) (delta : Q) (c : nat) : list xQ :=
  smooth delta (ncols F) (sum_dim0 (ncols F) (class_rows F labels c)).

(* ------------------------------------------------------------------ *)
(** ** Concrete runs *)

Example test_vocab :
  build_vocab c4_examples =
  <["bad"%string := 2]> (<["movie"%string := 1]> {["good"%string := 0]}).
Proof. vm_compute. reflexivity. Qed.

Example test_bow :
  bag_of_words ["good"; "movie"]%string (build_vocab c4_examples) false
  = Ok [1; 1; 0]%Q.
Proof. vm_compute. reflexivity. Qed.

(** [delta = 0] and class 1 without examples: its denominator is 0 and
    [0 / 0] is stored as [nan]. *)
Example test_fit_zero_denominator :
  conditional_probabilities
    (snd (fit NaiveBayes_init {| rows := [[1]; [1]]%Q; ncols := 1 |} [0; 2]%nat 0%Q))
  = Some [[QFin 1]; [QNaN]; [QFin 1]].
Proof. vm_compute. reflexivity. Qed.


Lemma xlog_pos (q : Q) : (0 < q)%Q -> xlog q = Fin (ln (Q2R q)).
Proof.
  intros H. unfold xlog.
  destruct (Qlt_le_dec 0 q) as [_|Hle]; [reflexivity|].
  exfalso. exact (Qlt_not_le _ _ H Hle).
Qed.

Lemma Q2R_0 : Q2R 0 = 0%R.
Proof. unfold Q2R; simpl; field. Qed.

Lemma Q2R_1 : Q2R 1 = 1%R.
Proof. unfold Q2R; simpl; field. Qed.

Lemma c4_model_eq :
  c4_model =
  {| class_priors := Some [1 # 2; 1 # 2];
     conditional_probabilities :=
       Some [[QFin (1 # 5); QFin (2 # 5); QFin (2 # 5)];
             [QFin (2 # 5); QFin (2 # 5); QFin (1 # 5)]];
     vocab_size := Some 3 |}.
Proof. vm_compute. reflexivity. Qed.

Lemma c4_posteriors :
  estimate_class_posteriors c4_model [0; 0; 1]%Q =
  Ok [Fin (ln (Q2R (1 # 2)) + (Q2R 0 * ln (Q2R (1 # 5)) + (Q2R 0 * ln (Q2R (2 # 5))
          + (Q2R 1 * ln (Q2R (2 # 5)) + 0))));
      Fin (ln (Q2R (1 # 2)) + (Q2R 0 * ln (Q2R (2 # 5)) + (Q2R 0 * ln (Q2R (2 # 5))
          + (Q2R 1 * ln (Q2R (1 # 5)) + 0))))]%R.
Proof.
  rewrite c4_model_eq. cbn -[xlog xmul xadd].
  rewrite !xlog_pos by reflexivity. reflexivity.
Qed.

Lemma c4_predict : predict c4_model [0; 0; 1]%Q = Ok 0.
Proof.
  unfold predict. rewrite c4_posteriors, c4_model_eq. cbn -[ln Q2R].
  destruct (Rlt_dec _ _) as [H|H]; [|reflexivity].
  exfalso.
  assert (ln (Q2R (1 # 5)) < ln (Q2R (2 # 5)))%R.
  { apply ln_increasing; unfold Q2R; simpl; lra. }
  revert H. rewrite Q2R_0, Q2R_1. lra.
Qed.

(** C4. The end-to-end scenario: the vocabulary of
    [[(["good","movie"],1), (["bad","movie"],0)]] is
    [{good:0, movie:1, bad:2}]; the two examples vectorise to [[1,1,0]]
    and [[0,1,1]]; fitting on them with labels [[1,0]] and [delta = 1.0]
    gives priors [{0:0.5, 1:0.5}]; [["bad"]] vectorises to [[0,0,1]] and
    is predicted as class 0. *)
Theorem c4_end_to_end :
  let vocab := build_vocab c4_examples in
  vocab = <["bad"%string := 2]> (<["movie"%string := 1]> {["good"%string := 0]}) /\
  bag_of_words ["good"; "movie"]%string vocab false = Ok [1; 1; 0]%Q /\
  bag_of_words ["bad"; "movie"]%string vocab false = Ok [0; 1; 1]%Q /\
  rows c4_features = [[1; 1; 0]; [0; 1; 1]]%Q /\ ncols c4_features = size vocab /\
  fit NaiveBayes_init c4_features [1; 0] 1%Q = (Ok tt, c4_model) /\
  class_priors c4_model = Some [1 # 2; 1 # 2] /\
  bag_of_words ["bad"]%string vocab false = Ok [0; 0; 1]%Q /\
  predict c4_model [0; 0; 1]%Q = Ok 0.
Proof.
  cbv zeta.
  split; [vm_compute; reflexivity|].
  split; [vm_compute; reflexivity|].
  split; [vm_compute; reflexivity|].
  split; [reflexivity|].
  split; [vm_compute; reflexivity|].
  split; [vm_compute; reflexivity|].
  split; [rewrite c4_model_eq; reflexivity|].
  split; [vm_compute; reflexivity|].
  exact c4_predict.
Qed.

(** C1 (failing inputs). Trained on the labels [[0]] (one class), the
    model has one prior, and [estimate_class_posteriors] raises a
    [KeyError] instead of returning one entry; trained on [[0,1,2]]
    (three classes), it returns two entries only. *)
Theorem c1_posteriors_not_per_class :
  let m1 := snd (fit NaiveBayes_init {| rows := [[1]]%Q; ncols := 1 |} [0] 1%Q) in
  let m3 := snd (fit NaiveBayes_init {| rows := [[1]; [1]; [1]]%Q; ncols := 1 |}
                     [0; 1; 2] 1%Q) in
  fst (fit NaiveBayes_init {| rows := [[1]]%Q; ncols := 1 |} [0] 1%Q) = Ok tt /\
  class_priors m1 = Some [1%Q] /\
  estimate_class_posteriors m1 [1]%Q = Err "KeyError"%string /\
  fst (fit NaiveBayes_init {| rows := [[1]; [1]; [1]]%Q; ncols := 1 |} [0; 1; 2] 1%Q)
    = Ok tt /\
  (exists pri, class_priors m3 = Some pri /\ length pri = 3) /\
  (exists v, estimate_class_posteriors m3 [1]%Q = Ok v /\ length v = 2).
Proof.
  cbv zeta.
  split; [reflexivity|].
  split; [reflexivity|].
  split; [reflexivity|].
  split; [reflexivity|].
  split; [eexists; split; reflexivity|].
  eexists. split; reflexivity.
Qed.

(** C2 (counterexample). Two training sets on which fit succeeds with
    [delta = 1 > 0] but the stated consequences fail: with no vocabulary
    column the probabilities of class 0 sum to 0, not 1; with a negative
    feature entry a probability is negative. *)
Lemma c2_counterexample :
  fit NaiveBayes_init {| rows := [[]]; ncols := 0 |} [0] 1%Q =
    (Ok tt, {| class_priors := Some [1%Q]; conditional_probabilities := Some [[]];
               vocab_size := Some 0 |}) /\
  ~ (qsum [] == 1)%Q /\
  (exists m, fit NaiveBayes_init {| rows := [[-5; 0]]%Q; ncols := 2 |} [0] 1%Q = (Ok tt, m) /\
     conditional_probabilities m =
       Some [[QFin ((-5 + 1) / (-5 + 1 * 2)); QFin ((0 + 1) / (-5 + 1 * 2))]]%Q) /\
  ~ (0 < (0 + 1) / (-5 + 1 * 2))%Q.
Proof.
  split; [reflexivity|].
  split; [unfold qsum; simpl; discriminate|].
  split; [eexists; split; reflexivity|].
  vm_compute. discriminate.
Qed.

(** C5 (counterexample). The model trained in the end-to-end scenario
    has [vocab_size = 3], yet a feature vector of length 1 is accepted by
    [estimate_class_posteriors], [predict] and [predict_proba]. *)
Lemma c5_counterexample :
  vocab_size c4_model = Some 3 /\
  (exists v, estimate_class_posteriors c4_model [1]%Q = Ok v) /\
  (exists i, predict c4_model [1]%Q = Ok i) /\
  (exists p, predict_proba c4_model [1]%Q = Ok p).
Proof.
  rewrite c4_model_eq.
  split; [reflexivity|].
  split; [eexists; reflexivity|].
  split; [eexists; reflexivity|].
  eexists; reflexivity.
Qed.

(** C6 (counterexample). [fit] with [delta = -1] raises nothing and
    leaves the model trained. *)
Lemma c6_counterexample :
  exists m, fit NaiveBayes_init c4_features [1; 0] (-1)%Q = (Ok tt, m) /\
    truthy (class_priors m) = true /\ truthy (conditional_probabilities m) = true.
Proof. eexists. split; [reflexivity|]. split; reflexivity. Qed.

(** C7 (counterexample). On an untrained model, [predict] and
    [predict_proba] raise a plain [Exception] and
    [estimate_class_posteriors] a [ValueError], not an
    [UntrainedModelError]. *)
Lemma c7_counterexample :
  estimate_class_posteriors NaiveBayes_init [1]%Q = Err "ValueError"%string /\
  predict NaiveBayes_init [1]%Q = Err "Exception"%string /\
  predict_proba NaiveBayes_init [1]%Q = Err "Exception"%string /\
  predict NaiveBayes_init [1]%Q <> Err "UntrainedModelError"%string.
Proof.
  split; [reflexivity|]. split; [reflexivity|]. split; [reflexivity|].
  discriminate.
Qed.

(* ------------------------------------------------------------------ *)
(** ** Training: what [fit] computes *)

Lemma mask_filter (rs : list (list Q)) (ls : list nat) (c : nat) :
  map fst (List.filter snd (combine rs (map (fun l => Nat.eqb l c) ls))) =
  map fst (List.filter (fun '(_, l) => Nat.eqb l c) (combine rs ls)).
Proof.
  revert ls. induction rs as [|r rs IH]; intros [|l ls]; simpl; try reflexivity.
  destruct (Nat.eqb l c); simpl; rewrite IH; reflexivity.
Qed.

Lemma word_counts_loop_ok (F : tensor2) (labels : list nat) (cs : list nat) :
  length labels = length (rows F) ->
  word_counts_loop F labels cs =
  Ok (map (fun c => sum_dim0 (ncols F) (class_rows F labels c)) cs).
Proof.
  intros Hlen. induction cs as [|c cs IH]; simpl; [reflexivity|].
  unfold mask_rows. rewrite length_map, Hlen, Nat.eqb_refl. simpl.
  rewrite IH. simpl. unfold class_rows. rewrite mask_filter. reflexivity.
Qed.

Lemma word_counts_loop_err (F : tensor2) (labels : list nat) (c : nat) (cs : list nat) :
  length labels <> length (rows F) ->
  word_counts_loop F labels (c :: cs) = Err "IndexError"%string.
Proof.
  intros Hlen. simpl. unfold mask_rows. rewrite length_map.
  apply Nat.eqb_neq in Hlen. rewrite Hlen. reflexivity.
Qed.

Lemma fit_ok (st : NaiveBayes) (F : tensor2) (labels : list nat) (delta : Q) :
  labels <> [] -> length labels = length (rows F) ->
  fit st F labels delta = (Ok tt, trained_model F labels delta).
Proof.
  intros Hne Hlen. unfold fit, estimate_conditional_probabilities.
  destruct labels as [|l ls]; [congruence|]. simpl torch_max. cbn [rbind].
  rewrite word_counts_loop_ok by exact Hlen. reflexivity.
Qed.

Lemma fit_empty (st : NaiveBayes) (F : tensor2) (delta : Q) :
  fst (fit st F [] delta) = Err "RuntimeError"%string.
Proof. reflexivity. Qed.

Lemma fit_mismatch (st : NaiveBayes) (F : tensor2) (labels : list nat) (delta : Q) :
  labels <> [] -> length labels <> length (rows F) ->
  fst (fit st F labels delta) = Err "IndexError"%string.
Proof.
  intros Hne Hlen. unfold fit, estimate_conditional_probabilities.
  destruct labels as [|l ls]; [congruence|]. simpl torch_max. cbn [rbind seq].
  rewrite word_counts_loop_err by exact Hlen. reflexivity.
Qed.

Lemma fit_ok_inv (st st' : NaiveBayes) (F : tensor2) (labels : list nat) (delta : Q) :
  fit st F labels delta = (Ok tt, st') ->
  labels <> [] /\ length labels = length (rows F) /\ st' = trained_model F labels delta.
Proof.
  intros H.
  destruct labels as [|l ls].
  { pose proof (fit_empty st F delta) as E. rewrite H in E. discriminate. }
  destruct (Nat.eq_dec (length (l :: ls)) (length (rows F))) as [Hlen|Hlen].
  - rewrite fit_ok in H by (congruence || exact Hlen). injection H as <-.
    split; [discriminate|]. split; [exact Hlen|reflexivity].
  - pose proof (fit_mismatch st F (l :: ls) delta ltac:(discriminate) Hlen) as E.
    rewrite H in E. discriminate.
Qed.

Lemma fit_priors (st : NaiveBayes) (F : tensor2) (labels : list nat) (delta : Q) :
  class_priors (snd (fit st F labels delta)) = Some (estimate_class_priors labels).
Proof.
  unfold fit. destruct (estimate_conditional_probabilities F labels delta); reflexivity.
Qed.

(** Counting labels. *)

Lemma list_max_ge (l : list nat) (x : nat) : In x l -> x <= list_max l.
Proof.
  induction l as [|a l IH]; simpl; [tauto|].
  intros [<-|Hin]; [lia|]. specialize (IH Hin). lia.
Qed.

Lemma indicator_sum (a k n : nat) :
  list_sum (map (fun c => if Nat.eq_dec a c then 1 else 0) (seq k n)) =
  if (k <=? a) && (a <? k + n) then 1 else 0.
Proof.
  revert k. induction n as [|n IH]; intros k; simpl.
  - destruct (k <=? a) eqn:E1; destruct (a <? k + 0) eqn:E2; simpl; try reflexivity.
    apply Nat.leb_le in E1. apply Nat.ltb_lt in E2. lia.
  - rewrite IH. destruct (Nat.eq_dec a k) as [->|Hne].
    + rewrite (proj2 (Nat.leb_le k k)) by lia.
      rewrite (proj2 (Nat.ltb_lt k (k + S n))) by lia.
      destruct (S k <=? k) eqn:E; [apply Nat.leb_le in E; lia|]. reflexivity.
    + destruct (S k <=? a) eqn:E1; destruct (a <? S k + n) eqn:E2;
      destruct (k <=? a) eqn:E3; destruct (a <? k + S n) eqn:E4; simpl;
      repeat match goal with
             | H : (_ <=? _) = true |- _ => apply Nat.leb_le in H
             | H : (_ <=? _) = false |- _ => apply Nat.leb_gt in H
             | H : (_ <? _) = true |- _ => apply Nat.ltb_lt in H
             | H : (_ <? _) = false |- _ => apply Nat.ltb_ge in H
             end; try reflexivity; lia.
Qed.

Lemma count_occ_sum (l : list nat) (n : nat) :
  (forall x, In x l -> x < n) ->
  list_sum (map (count_occ Nat.eq_dec l) (seq 0 n)) = length l.
Proof.
  induction l as [|a l IH]; intros Hlt.
  - simpl. induction (seq 0 n) as [|c s IHs]; simpl; [reflexivity|]. exact IHs.
  - assert (Hsplit : forall s, list_sum (map (count_occ Nat.eq_dec (a :: l)) s) =
              list_sum (map (fun c => if Nat.eq_dec a c then 1 else 0) s) +
              list_sum (map (count_occ Nat.eq_dec l) s)).
    { unfold list_sum. induction s as [|c s IHs]; cbn [map fold_right]; [reflexivity|].
      rewrite IHs. cbn [count_occ]. destruct (Nat.eq_dec a c); lia. }
    rewrite Hsplit, indicator_sum, IH by (intros x Hx; apply Hlt; simpl; auto).
    assert (a < n) by (apply Hlt; simpl; auto).
    rewrite (proj2 (Nat.leb_le 0 a)) by lia.
    rewrite (proj2 (Nat.ltb_lt a (0 + n))) by lia. simpl. reflexivity.
Qed.

Lemma nth_map_seq {A} (f : nat -> A) (n c : nat) (d : A) :
  c < n -> nth c (map f (seq 0 n)) d = f c.
Proof.
  intros Hc. rewrite nth_indep with (d' := f 0) by (rewrite length_map, length_seq; lia).
  rewrite map_nth, seq_nth by lia. reflexivity.
Qed.

Lemma qsum_map_div (g : nat -> Q) (s : list nat) (N : Q) :
  (qsum (map (fun c => g c / N) s) == qsum (map g s) / N)%Q.
Proof.
  unfold Qdiv. induction s as [|c s IH]; simpl.
  - ring.
  - rewrite IH. ring.
Qed.

Lemma qsum_inject (f : nat -> nat) (s : list nat) :
  (qsum (map (fun c => inject_Z (Z.of_nat (f c))) s) ==
   inject_Z (Z.of_nat (list_sum (map f s))))%Q.
Proof.
  induction s as [|c s IH]; simpl; [reflexivity|].
  rewrite IH, Nat2Z.inj_add, inject_Z_plus. reflexivity.
Qed.

Lemma estimate_class_priors_eq (labels : list nat) :
  labels <> [] ->
  estimate_class_priors labels =
  map (fun c => inject_Z (Z.of_nat (count_occ Nat.eq_dec labels c)) /
                inject_Z (Z.of_nat (length labels)))%Q
      (seq 0 (S (list_max labels))).
Proof.
  intros Hne. unfold estimate_class_priors, bincount.
  destruct labels as [|l ls]; [congruence|].
  rewrite map_map. reflexivity.
Qed.

(** C3. For a non-empty label vector, [fit] sets one prior per class
    [c] in [0 .. max(label)], equal to the number of examples labelled
    [c] over the number of examples; the priors sum to 1, and a class
    without examples gets prior 0. *)
Theorem c3_class_priors (st : NaiveBayes) (F : tensor2) (labels : list nat) (delta : Q) :
  labels <> [] ->
  exists pri,
    class_priors (snd (fit st F labels delta)) = Some pri /\
    length pri = S (list_max labels) /\
    (forall c, c <= list_max labels ->
       (nth c pri 0 == inject_Z (Z.of_nat (count_occ Nat.eq_dec labels c)) /
                       inject_Z (Z.of_nat (length labels)))%Q) /\
    (qsum pri == 1)%Q /\
    (forall c, c <= list_max labels -> count_occ Nat.eq_dec labels c = 0 ->
       (nth c pri 0 == 0)%Q).
Proof.
  intros Hne. exists (estimate_class_priors labels).
  rewrite fit_priors, estimate_class_priors_eq by exact Hne.
  assert (Hnth : forall c, c <= list_max labels ->
            nth c (map (fun c => inject_Z (Z.of_nat (count_occ Nat.eq_dec labels c)) /
                                 inject_Z (Z.of_nat (length labels)))%Q
                       (seq 0 (S (list_max labels)))) 0%Q =
            (inject_Z (Z.of_nat (count_occ Nat.eq_dec labels c)) /
             inject_Z (Z.of_nat (length labels)))%Q).
  { intros c Hc. rewrite nth_map_seq by lia. reflexivity. }
  split; [reflexivity|].
  split; [rewrite length_map, length_seq; reflexivity|].
  split; [intros c Hc; rewrite Hnth by exact Hc; reflexivity|].
  split.
  - rewrite qsum_map_div, qsum_inject, count_occ_sum.
    + assert (Hpos : (0 < length labels)%nat)
        by (destruct labels; [congruence|simpl; lia]).
      unfold Qdiv. apply Qmult_inv_r. intros E.
      unfold Qeq in E. simpl in E. lia.
    + intros x Hx. apply list_max_ge in Hx. lia.
  - intros c Hc H0. rewrite Hnth by exact Hc. rewrite H0. reflexivity.
Qed.

(** C6. [fit] never inspects [delta]: whether it raises, and which
    exception, is the same for every [delta] (it succeeds exactly when
    the labels are non-empty and match the rows of the features), and a
    successful [fit], negative [delta] included, leaves the model
    trained. *)
Theorem c6_fit_no_delta_check (st : NaiveBayes) (F : tensor2) (labels : list nat)
    (delta delta' : Q) :
  fst (fit st F labels delta) = fst (fit st F labels delta') /\
  (fst (fit st F labels delta) = Ok tt <->
   labels <> [] /\ length labels = length (rows F)) /\
  (fst (fit st F labels delta) = Ok tt ->
   truthy (class_priors (snd (fit st F labels delta))) = true /\
   truthy (conditional_probabilities (snd (fit st F labels delta))) = true).
Proof.
  destruct labels as [|l ls].
  { rewrite !fit_empty. split; [reflexivity|].
    split; [split; [discriminate|intros [H _]; congruence]|discriminate]. }
  destruct (Nat.eq_dec (length (l :: ls)) (length (rows F))) as [Hlen|Hlen].
  - rewrite !fit_ok by (discriminate || exact Hlen). simpl.
    split; [reflexivity|].
    split; [split; [intros _; split; [discriminate|exact Hlen]|reflexivity]|]. intros _.
    unfold estimate_class_priors, bincount. simpl. split; reflexivity.
  - rewrite !fit_mismatch by (discriminate || exact Hlen).
    split; [reflexivity|]. split; [|discriminate].
    split; [discriminate|intros [_ H]; contradiction].
Qed.

(** Column sums and smoothing. *)

Lemma vadd_spec (u v : list Q) (n : nat) :
  length u = n -> length v = n ->
  length (vadd u v) = n /\
  (forall w, w < n -> nth w (vadd u v) 0%Q = (nth w u 0 + nth w v 0)%Q).
Proof.
  revert v n. induction u as [|a u IH]; intros [|b v] n Hu Hv; simpl in Hu, Hv; subst;
    try discriminate.
  - split; [reflexivity|intros w Hw; lia].
  - injection Hv as Hv.
    destruct (IH v (length u) eq_refl Hv) as [Hl Hn].
    unfold vadd in *. simpl. split; [rewrite Hl; reflexivity|].
    intros [|w] Hw; [reflexivity|]. apply Hn. lia.
Qed.

Lemma fold_vadd_spec (rs : list (list Q)) (acc : list Q) (n : nat) :
  Forall (fun r => length r = n) rs -> length acc = n ->
  length (fold_left vadd rs acc) = n /\
  (forall w, w < n ->
     (nth w (fold_left vadd rs acc) 0 == nth w acc 0 + qsum (map (fun r => nth w r 0) rs))%Q).
Proof.
  revert acc. induction rs as [|r rs IH]; intros acc Hrs Hacc; simpl.
  - split; [exact Hacc|]. intros w _. ring.
  - inversion Hrs as [|? ? Hr Hrs']; subst.
    destruct (vadd_spec acc r (length acc) eq_refl Hr) as [Hl Hn].
    destruct (IH (vadd acc r) Hrs' Hl) as [Hl' Hn'].
    split; [exact Hl'|]. intros w Hw. rewrite Hn' by exact Hw. rewrite Hn by exact Hw. ring.
Qed.

Lemma class_rows_in (F : tensor2) (labels : list nat) (c : nat) (r : list Q) :
  In r (class_rows F labels c) -> In r (rows F).
Proof.
  unfold class_rows. intros Hr. apply in_map_iff in Hr as [[r' l] [Heq Hin]].
  simpl in Heq. subst r'. apply List.filter_In in Hin as [Hin _].
  exact (in_combine_l _ _ _ _ Hin).
Qed.

Lemma nth_map_lt {A B} (f : A -> B) (l : list A) (w : nat) (d : A) (d' : B) :
  w < length l -> nth w (map f l) d' = f (nth w l d).
Proof.
  intros Hw. rewrite nth_indep with (d' := f d) by (rewrite length_map; exact Hw).
  apply map_nth.
Qed.

Lemma map_nth_seq_id {A} (l : list A) (n : nat) (d : A) :
  length l = n -> map (fun w => nth w l d) (seq 0 n) = l.
Proof.
  intros <-. induction l as [|a l IH]; simpl; [reflexivity|].
  f_equal. rewrite <- seq_shift, map_map. exact IH.
Qed.

Lemma qsum_map_Qeq {A} (f g : A -> Q) (s : list A) :
  (forall x, In x s -> (f x == g x)%Q) -> (qsum (map f s) == qsum (map g s))%Q.
Proof.
  induction s as [|x s IH]; intros H; simpl; [reflexivity|].
  rewrite H by (left; reflexivity). rewrite IH by (intros y Hy; apply H; right; exact Hy).
  reflexivity.
Qed.

Lemma qsum_map_nonneg {A} (f : A -> Q) (s : list A) :
  (forall x, In x s -> (0 <= f x)%Q) -> (0 <= qsum (map f s))%Q.
Proof.
  induction s as [|x s IH]; intros H; simpl; [apply Qle_refl|].
  rewrite <- (Qplus_0_l 0). apply Qplus_le_compat.
  - apply H. left. reflexivity.
  - apply IH. intros y Hy. apply H. right. exact Hy.
Qed.

Lemma qsum_smooth (l : list Q) (delta D : Q) :
  (qsum (map (fun x => (x + delta) / D) l) ==
   (qsum l + delta * inject_Z (Z.of_nat (length l))) / D)%Q.
Proof.
  unfold Qdiv. induction l as [|x l IH]; simpl.
  - ring.
  - rewrite IH, Nat2Z.inj_succ, <- Z.add_1_r, inject_Z_plus. ring.
Qed.

Lemma class_word_counts (F : tensor2) (labels : list nat) (c : nat) :
  tensor2_wf F ->
  length (sum_dim0 (ncols F) (class_rows F labels c)) = ncols F /\
  (forall w, w < ncols F ->
     (nth w (sum_dim0 (ncols F) (class_rows F labels c)) 0 == count_cw F labels c w)%Q) /\
  (qsum (sum_dim0 (ncols F) (class_rows F labels c)) == count_c F labels c)%Q.
Proof.
  intros Hwf.
  assert (Hrows : Forall (fun r => length r = ncols F) (class_rows F labels c)).
  { apply List.Forall_forall. intros r Hr. unfold tensor2_wf in Hwf.
    rewrite List.Forall_forall in Hwf. apply Hwf. exact (class_rows_in F labels c r Hr). }
  destruct (fold_vadd_spec (class_rows F labels c) (repeat 0%Q (ncols F)) (ncols F) Hrows
              (repeat_length _ _)) as [Hl Hn].
  unfold sum_dim0.
  assert (Hn' : forall w, w < ncols F ->
     (nth w (fold_left vadd (class_rows F labels c) (repeat 0%Q (ncols F))) 0
      == count_cw F labels c w)%Q).
  { intros w Hw. rewrite Hn by exact Hw. rewrite nth_repeat. unfold count_cw. ring. }
  split; [exact Hl|]. split; [exact Hn'|].
  rewrite <- (map_nth_seq_id _ (ncols F) 0%Q Hl) at 1.
  unfold count_c. apply qsum_map_Qeq. intros w Hw. apply in_seq in Hw. apply Hn'. lia.
Qed.

Lemma qdiv_nz (a b : Q) : ~ (b == 0)%Q -> qdiv a b = QFin (a / b).
Proof.
  intros H. unfold qdiv. destruct (Qeq_bool b 0) eqn:E; [|reflexivity].
  apply Qeq_bool_iff in E. contradiction.
Qed.

Lemma qdiv_zero (a b : Q) :
  (b == 0)%Q ->
  ((0 < a)%Q -> qdiv a b = QPInf) /\ ((a == 0)%Q -> qdiv a b = QNaN) /\
  ((a < 0)%Q -> qdiv a b = QNInf).
Proof.
  intros H. unfold qdiv. rewrite (proj2 (Qeq_bool_iff b 0) H).
  destruct (Qlt_le_dec 0 a) as [Hlt|Hle].
  - split; [reflexivity|]. split; intros H'.
    + rewrite H' in Hlt. exfalso. exact (Qlt_irrefl 0 Hlt).
    + exfalso. exact (Qlt_irrefl 0 (Qlt_trans _ _ _ Hlt H')).
  - split; [intros H'; exfalso; exact (Qlt_not_le _ _ H' Hle)|].
    destruct (Qeq_bool a 0) eqn:E.
    + split; [reflexivity|]. intros H'. apply Qeq_bool_iff in E. rewrite E in H'.
      exfalso. exact (Qlt_irrefl 0 H').
    + split; [|reflexivity]. intros H'. apply Qeq_bool_iff in H'. congruence.
Qed.

(** C2 (amended). For every training set on which [fit] succeeds and
    every [delta], class [c] in [0 .. max(label)] gets a vector of
    [vocab_size] entries. When the denominator
    [D = sum_w count(c,w) + delta * vocab_size] is not 0, the entries
    are the finite values [P(w|c) = (count(c,w) + delta) / D]; when it
    is 0, the float division stores [inf], [nan] or [-inf] according to
    the sign of [count(c,w) + delta]. When moreover [delta > 0], the
    vocabulary is not empty and the features are non-negative, every
    [P(w|c)] is finite and positive and the probabilities of each class
    sum to 1. *)
Theorem c2_conditional_probabilities (st st' : NaiveBayes) (F : tensor2)
    (labels : list nat) (delta : Q) :
  tensor2_wf F ->
  fit st F labels delta = (Ok tt, st') ->
  exists cp,
    conditional_probabilities st' = Some cp /\
    length cp = S (list_max labels) /\
    forall c, c <= list_max labels ->
      length (nth c cp []) = ncols F /\
      (~ (count_c F labels c + delta * inject_Z (Z.of_nat (ncols F)) == 0)%Q ->
         exists ps, nth c cp [] = map QFin ps /\
           forall w, w < ncols F ->
             (nth w ps 0 ==
              (count_cw F labels c w + delta) /
              (count_c F labels c + delta * inject_Z (Z.of_nat (ncols F))))%Q) /\
      ((count_c F labels c + delta * inject_Z (Z.of_nat (ncols F)) == 0)%Q ->
         forall w, w < ncols F ->
           ((0 < count_cw F labels c w + delta)%Q -> nth w (nth c cp []) QNaN = QPInf) /\
           ((count_cw F labels c w + delta == 0)%Q -> nth w (nth c cp []) QNaN = QNaN) /\
           ((count_cw F labels c w + delta < 0)%Q -> nth w (nth c cp []) QNaN = QNInf)) /\
      ((0 < delta)%Q -> 0 < ncols F -> features_nonneg F ->
         exists ps, nth c cp [] = map QFin ps /\
           (forall w, w < ncols F -> (0 < nth w ps 0)%Q) /\
           (qsum ps == 1)%Q).
Proof.
  intros Hwf Hfit. apply fit_ok_inv in Hfit as [Hne [Hlen ->]].
  eexists. split; [reflexivity|].
  rewrite map_map. split; [rewrite length_map, length_seq; reflexivity|].
  intros c Hc. rewrite nth_map_seq by lia.
  destruct (class_word_counts F labels c Hwf) as [Hl [Hn Hs]].
  set (wc := sum_dim0 (ncols F) (class_rows F labels c)) in *.
  set (V := ncols F) in *.
  set (D := (qsum wc + delta * inject_Z (Z.of_nat V))%Q).
  assert (HD : (D == count_c F labels c + delta * inject_Z (Z.of_nat V))%Q).
  { unfold D. rewrite Hs. reflexivity. }
  assert (Hfin : ~ (D == 0)%Q ->
            smooth delta V wc = map QFin (map (fun x => (x + delta) / D)%Q wc)).
  { intros Hnz. unfold smooth. rewrite map_map. apply map_ext. intros x.
    apply qdiv_nz. exact Hnz. }
  split; [unfold smooth; rewrite length_map; exact Hl|].
  split.
  { intros Hnz. rewrite <- HD in Hnz. rewrite (Hfin Hnz). eexists. split; [reflexivity|].
    intros w Hw. rewrite (nth_map_lt _ wc w 0%Q) by lia. rewrite (Hn w Hw), HD. reflexivity. }
  split.
  { intros Hz w Hw. rewrite <- HD in Hz.
    unfold smooth. rewrite (nth_map_lt _ wc w 0%Q QNaN) by lia. fold D.
    destruct (qdiv_zero (nth w wc 0%Q + delta) D Hz) as [Q1 [Q2 Q3]].
    split; [|split]; intros H.
    - apply Q1. rewrite (Hn w Hw). exact H.
    - apply Q2. rewrite (Hn w Hw). exact H.
    - apply Q3. rewrite (Hn w Hw). exact H. }
  intros Hdelta HV Hnonneg.
  assert (Hcw : forall w, (0 <= count_cw F labels c w)%Q).
  { intros w. unfold count_cw. apply qsum_map_nonneg. intros r Hr.
    apply class_rows_in in Hr. unfold features_nonneg in Hnonneg.
    rewrite List.Forall_forall in Hnonneg. specialize (Hnonneg r Hr).
    rewrite List.Forall_forall in Hnonneg.
    destruct (Nat.lt_ge_cases w (length r)) as [Hw|Hw].
    - apply Hnonneg. apply nth_In. exact Hw.
    - rewrite nth_overflow by exact Hw. apply Qle_refl. }
  assert (Hpos : (0 < D)%Q).
  { rewrite HD. apply Qle_lt_trans with (y := (count_c F labels c + 0)%Q).
    - rewrite Qplus_0_r. unfold count_c. apply qsum_map_nonneg. intros w _. apply Hcw.
    - rewrite Qplus_lt_r. apply Qmult_lt_0_compat; [exact Hdelta|].
      unfold Qlt. simpl. lia. }
  assert (Hnz : ~ (D == 0)%Q).
  { intros E. rewrite E in Hpos. exact (Qlt_irrefl 0 Hpos). }
  rewrite (Hfin Hnz). eexists. split; [reflexivity|]. split.
  - intros w Hw. rewrite (nth_map_lt _ wc w 0%Q) by lia. unfold Qdiv.
    apply Qmult_lt_0_compat; [|apply Qinv_lt_0_compat; exact Hpos].
    rewrite (Hn w Hw). apply Qle_lt_trans with (y := (count_cw F labels c w + 0)%Q).
    + rewrite Qplus_0_r. apply Hcw.
    + rewrite Qplus_lt_r. exact Hdelta.
  - rewrite qsum_smooth, Hl. fold D. unfold Qdiv. apply Qmult_inv_r. exact Hnz.
Qed.

(* ------------------------------------------------------------------ *)
(** ** Inference: what [estimate_class_posteriors], [predict] and
    [predict_proba] compute *)

Lemma xlt_irrefl (x : xR) : xlt x x = false.
Proof.
  destruct x; simpl; try reflexivity.
  destruct (Rlt_dec r r) as [H|_]; [lra|reflexivity].
Qed.

Lemma xlt_trans (x y z : xR) : xlt x y = true -> xlt y z = true -> xlt x z = true.
Proof.
  destruct x, y, z; simpl; try discriminate; try reflexivity.
  destruct (Rlt_dec r r0); [|discriminate].
  destruct (Rlt_dec r0 r1); [|discriminate].
  destruct (Rlt_dec r r1); [reflexivity|lra].
Qed.

Lemma xlt_total (x y : xR) :
  is_nan x = false -> is_nan y = false ->
  x = y \/ xlt x y = true \/ xlt y x = true.
Proof.
  destruct x, y; simpl; try discriminate; intros _ _; auto.
  destruct (Rlt_dec r r0); [auto|].
  destruct (Rlt_dec r0 r); [auto|].
  left. f_equal. lra.
Qed.

Lemma nth_snoc_lt (l : list xR) (x : xR) (j : nat) :
  j < length l -> nth j (l ++ [x]) NaN = nth j l NaN.
Proof. intros Hj. apply app_nth1. exact Hj. Qed.

Lemma nth_snoc_eq (l : list xR) (x : xR) : nth (length l) (l ++ [x]) NaN = x.
Proof. rewrite app_nth2 by lia. rewrite Nat.sub_diag. reflexivity. Qed.

Lemma argmax_inv_step (pre : list xR) (best : nat) (bv x : xR) :
  argmax_inv pre best bv ->
  let take := match bv, x with
              | NaN, _ => false
              | _, NaN => true
              | _, _ => xlt bv x
              end in
  if take then argmax_inv (pre ++ [x]) (length pre) x
  else argmax_inv (pre ++ [x]) best bv.
Proof.
  intros [Hb [Hbv [Hnan Hfin]]]. cbv zeta.
  assert (Hlen : length (pre ++ [x]) = S (length pre)) by (rewrite length_app; simpl; lia).
  assert (Hsplit : forall j, j < S (length pre) -> j < length pre \/ j = length pre) by lia.
  destruct (is_nan bv) eqn:Ebv.
  - (* the best value so far is nan: it is kept *)
    destruct bv; try discriminate.
    unfold argmax_inv. rewrite Hlen. rewrite nth_snoc_lt by exact Hb.
    split; [lia|]. split; [exact Hbv|]. split; [|discriminate].
    intros _ j Hj. rewrite nth_snoc_lt by lia. apply Hnan; [reflexivity|exact Hj].
  - destruct (Hfin eq_refl) as [Hall Hlow].
    assert (Hkeep : xlt bv x = false -> is_nan x = false ->
                    argmax_inv (pre ++ [x]) best bv).
    { intros Hnlt Hx. unfold argmax_inv. rewrite Hlen. rewrite nth_snoc_lt by exact Hb.
      split; [lia|]. split; [exact Hbv|]. split; [rewrite Ebv; discriminate|].
      intros _. split.
      - intros j Hj. destruct (Hsplit j Hj) as [Hj' | ->].
        + rewrite nth_snoc_lt by exact Hj'. apply Hall. exact Hj'.
        + rewrite nth_snoc_eq. split; assumption.
      - intros j Hj. rewrite nth_snoc_lt by lia. apply Hlow. exact Hj. }
    destruct (is_nan x) eqn:Ex.
    + (* a first nan replaces the best value *)
      destruct x; try discriminate.
      destruct bv; try discriminate;
      (unfold argmax_inv; rewrite Hlen, nth_snoc_eq;
       split; [lia|]; split; [reflexivity|]; split; [|discriminate];
       intros _ j Hj; rewrite nth_snoc_lt by exact Hj; apply Hall; exact Hj).
    + assert (Htake : match bv, x with
                      | NaN, _ => false
                      | _, NaN => true
                      | _, _ => xlt bv x
                      end = xlt bv x)
        by (destruct bv, x; try discriminate; reflexivity).
      rewrite Htake.
      destruct (xlt bv x) eqn:Elt; [|apply Hkeep; reflexivity || assumption].
      unfold argmax_inv. rewrite Hlen, nth_snoc_eq.
      split; [lia|]. split; [reflexivity|]. split; [rewrite Ex; discriminate|].
      intros _. split.
      * intros j Hj. destruct (Hsplit j Hj) as [Hj' | ->].
        -- rewrite nth_snoc_lt by exact Hj'. destruct (Hall j Hj') as [Hjn Hjlt].
           split; [exact Hjn|].
           destruct (xlt x (nth j pre NaN)) eqn:E; [|reflexivity].
           rewrite (xlt_trans _ _ _ Elt E) in Hjlt. discriminate.
        -- rewrite nth_snoc_eq. split; [exact Ex|apply xlt_irrefl].
      * intros j Hj. rewrite nth_snoc_lt by exact Hj.
        destruct (Hall j Hj) as [Hjn Hjlt].
        destruct (xlt_total (nth j pre NaN) bv Hjn Ebv) as [E|[E|E]].
        -- rewrite E. exact Elt.
        -- exact (xlt_trans _ _ _ E Elt).
        -- rewrite E in Hjlt. discriminate.
Qed.

Lemma argmax_loop_inv (rest pre : list xR) (best : nat) (bv : xR) :
  argmax_inv pre best bv ->
  let r := argmax_loop rest (length pre) best bv in
  argmax_inv (pre ++ rest) r (nth r (pre ++ rest) NaN).
Proof.
  revert pre best bv. induction rest as [|x rest IH]; intros pre best bv Hinv; simpl.
  - rewrite app_nil_r. destruct Hinv as [Hb [Hbv Hrest]].
    split; [exact Hb|]. split; [reflexivity|]. rewrite Hbv. exact Hrest.
  - pose proof (argmax_inv_step pre best bv x Hinv) as Hstep. cbv zeta in Hstep.
    replace (pre ++ x :: rest) with ((pre ++ [x]) ++ rest) by (rewrite <- app_assoc; reflexivity).
    assert (Hl : S (length pre) = length (pre ++ [x])) by (rewrite length_app; simpl; lia).
    destruct (match bv, x with
              | NaN, _ => false
              | _, NaN => true
              | _, _ => xlt bv x
              end); rewrite Hl; apply IH; exact Hstep.
Qed.

Lemma torch_argmax_spec (v : list xR) (i : nat) :
  torch_argmax v = Ok i ->
  i < length v /\
  ((forall j, j < length v -> is_nan (nth j v NaN) = false) ->
     (forall j, j < length v -> xle (nth j v NaN) (nth i v NaN) = true) /\
     (forall j, j < i -> xlt (nth j v NaN) (nth i v NaN) = true)) /\
  ((exists j, j < length v /\ is_nan (nth j v NaN) = true) ->
     is_nan (nth i v NaN) = true /\ (forall j, j < i -> is_nan (nth j v NaN) = false)).
Proof.
  destruct v as [|x rest]; [discriminate|]. intros H. simpl in H. injection H as <-.
  assert (H0 : argmax_inv [x] 0 x).
  { unfold argmax_inv. simpl. split; [lia|]. split; [reflexivity|].
    split; [intros _ j Hj; lia|]. intros Hx. split; [|intros j Hj; lia].
    intros j Hj. assert (j = 0) as -> by lia. simpl. split; [exact Hx|apply xlt_irrefl]. }
  pose proof (argmax_loop_inv rest [x] 0 x H0) as Hinv. cbv zeta in Hinv.
  change ([x] ++ rest) with (x :: rest) in Hinv. change (length [x]) with 1 in Hinv.
  set (r := argmax_loop rest 1 0 x) in *.
  destruct Hinv as [Hr [_ [Hnan Hfin]]].
  split; [simpl in Hr; exact Hr|].
  destruct (is_nan (nth r (x :: rest) NaN)) eqn:Er.
  - split.
    + intros Hall. rewrite (Hall r Hr) in Er. discriminate.
    + intros _. split; [reflexivity|]. apply Hnan. reflexivity.
  - destruct (Hfin eq_refl) as [Hall Hlow]. split.
    + intros _. split; [|exact Hlow].
      intros j Hj. unfold xle. rewrite (proj2 (Hall j Hj)). reflexivity.
    + intros [j [Hj Hjn]]. rewrite (proj1 (Hall j Hj)) in Hjn. discriminate.
Qed.

Lemma loop_ok_nth (pri : list Q) (cp : list (list xQ)) (f : list Q) (cs : list nat)
    (lps : list xR) :
  log_posteriors_loop pri cp f cs = Ok lps ->
  forall k y, nth_error lps k = Some y ->
  exists c, nth_error cs k = Some c /\ log_posterior pri cp f c = Ok y.
Proof.
  revert lps. induction cs as [|c cs IH]; intros lps H k y Hk; simpl in H.
  - injection H as <-. destruct k; discriminate.
  - destruct (log_posterior pri cp f c) as [lp|e] eqn:E; [|discriminate]. cbn [rbind] in H.
    destruct (log_posteriors_loop pri cp f cs) as [lps'|e] eqn:E'; [|discriminate].
    cbn [rbind] in H. injection H as <-.
    destruct k as [|k]; simpl in Hk.
    + injection Hk as <-. exists c. split; [reflexivity|exact E].
    + destruct (IH lps' eq_refl k y Hk) as [c' [Hc' Hlp]]. exists c'. split; assumption.
Qed.

Lemma nth_error_seq_inv (s n k c : nat) : nth_error (seq s n) k = Some c -> c = s + k.
Proof.
  revert s k. induction n as [|n IH]; intros s k H; simpl in H; [destruct k; discriminate|].
  destruct k as [|k]; simpl in H.
  - injection H as <-. lia.
  - apply IH in H. lia.
Qed.

Lemma estimate_shape (st : NaiveBayes) (f : list Q) (v : list xR) :
  estimate_class_posteriors st f = Ok v ->
  exists pri cp p0 p1,
    class_priors st = Some pri /\ conditional_probabilities st = Some cp /\
    v = [p0; p1] /\ log_posterior pri cp f 0 = Ok p0 /\ log_posterior pri cp f 1 = Ok p1.
Proof.
  unfold estimate_class_posteriors.
  destruct (conditional_probabilities st) as [cp|]; [|discriminate].
  destruct (class_priors st) as [pri|]; [|discriminate].
  destruct (log_posteriors_loop pri cp f (seq 0 (length pri))) as [lps|e] eqn:E;
    cbn [rbind]; [|discriminate].
  unfold dict_get.
  destruct (nth_error lps 0) as [p0|] eqn:E0; cbn [rbind]; [|discriminate].
  destruct (nth_error lps 1) as [p1|] eqn:E1; cbn [rbind]; [|discriminate].
  intros H. injection H as <-.
  destruct (loop_ok_nth _ _ _ _ _ E 0 p0 E0) as [c0 [Hc0 Hlp0]].
  destruct (loop_ok_nth _ _ _ _ _ E 1 p1 E1) as [c1 [Hc1 Hlp1]].
  apply nth_error_seq_inv in Hc0, Hc1. simpl in Hc0, Hc1. subst c0 c1.
  exists pri, cp, p0, p1. repeat split; assumption.
Qed.

Lemma predict_unfold (st : NaiveBayes) (f : list Q) (i : nat) :
  predict st f = Ok i ->
  exists v, estimate_class_posteriors st f = Ok v /\ torch_argmax v = Ok i.
Proof.
  unfold predict.
  destruct (negb (truthy (class_priors st)) || negb (truthy (conditional_probabilities st)));
    [discriminate|].
  destruct (estimate_class_posteriors st f) as [v|e]; cbn [rbind]; [|discriminate].
  intros H. exists v. split; [reflexivity|exact H].
Qed.

Lemma predict_proba_unfold (st : NaiveBayes) (f : list Q) (p : list xR) :
  predict_proba st f = Ok p ->
  exists v, estimate_class_posteriors st f = Ok v /\ p = softmax v.
Proof.
  unfold predict_proba.
  destruct (negb (truthy (class_priors st)) || negb (truthy (conditional_probabilities st)));
    [discriminate|].
  destruct (estimate_class_posteriors st f) as [v|e]; cbn [rbind]; [|discriminate].
  intros H. injection H as <-. exists v. split; reflexivity.
Qed.

(** C9. Whenever [predict] returns a class [i], [i] is the index
    [torch.argmax] picks in the log-posterior vector [v]: if no entry of
    [v] is [nan], [v[i]] is maximal and every lower index has a strictly
    smaller value, so ties go to the lowest index; if some entry is
    [nan] (float semantics, possible only when a probability is 0 or
    negative), [i] is the first [nan] entry. *)
Theorem c9_predict_argmax (st : NaiveBayes) (f : list Q) (i : nat) :
  predict st f = Ok i ->
  exists v,
    estimate_class_posteriors st f = Ok v /\ i < length v /\
    ((forall j, j < length v -> is_nan (nth j v NaN) = false) ->
       (forall j, j < length v -> xle (nth j v NaN) (nth i v NaN) = true) /\
       (forall j, j < i -> xlt (nth j v NaN) (nth i v NaN) = true)) /\
    ((exists j, j < length v /\ is_nan (nth j v NaN) = true) ->
       is_nan (nth i v NaN) = true /\ (forall j, j < i -> is_nan (nth j v NaN) = false)).
Proof.
  intros H. destruct (predict_unfold st f i H) as [v [Hv Ha]].
  exists v. split; [exact Hv|]. exact (torch_argmax_spec v i Ha).
Qed.

Lemma softmax_length (v : list xR) : length (softmax v) = length v.
Proof. unfold softmax. rewrite !length_map. reflexivity. Qed.

(** C10. Whatever the number of classes the model was trained on, the
    log-posterior vector is made of exactly the entries computed for
    classes 0 and 1, [predict] returns 0 or 1 and [predict_proba]
    returns two probabilities. *)
Theorem c10_two_classes_only (st : NaiveBayes) (f : list Q) :
  (forall v, estimate_class_posteriors st f = Ok v ->
     exists pri cp p0 p1,
       class_priors st = Some pri /\ conditional_probabilities st = Some cp /\
       v = [p0; p1] /\ log_posterior pri cp f 0 = Ok p0 /\ log_posterior pri cp f 1 = Ok p1) /\
  (forall i, predict st f = Ok i -> i = 0 \/ i = 1) /\
  (forall p, predict_proba st f = Ok p -> length p = 2).
Proof.
  split; [intros v Hv; exact (estimate_shape st f v Hv)|].
  split.
  - intros i Hi. destruct (predict_unfold st f i Hi) as [v [Hv Ha]].
    destruct (estimate_shape st f v Hv) as [pri [cp [p0 [p1 [_ [_ [-> _]]]]]]].
    simpl in Ha. injection Ha as <-.
    destruct (match p0, p1 with
              | NaN, _ => false
              | _, NaN => true
              | _, _ => xlt p0 p1
              end); simpl; auto.
  - intros p Hp. destruct (predict_proba_unfold st f p Hp) as [v [Hv ->]].
    destruct (estimate_shape st f v Hv) as [pri [cp [p0 [p1 [_ [_ [-> _]]]]]]].
    rewrite softmax_length. reflexivity.
Qed.

Lemma nth_error_map_seq {A} (g : nat -> A) (n c : nat) :
  c < n -> nth_error (map g (seq 0 n)) c = Some (g c).
Proof.
  intros Hc. rewrite (nth_error_nth' _ (g 0)) by (rewrite length_map, length_seq; exact Hc).
  rewrite nth_map_seq by exact Hc. reflexivity.
Qed.

(** Tensor broadcasting of the feature vector against a probability
    vector succeeds exactly for compatible lengths. *)
Lemma broadcast_mul_ok (f : list Q) (t : list xR) :
  length f = length t \/ length f = 1 \/ length t = 1 ->
  exists r, broadcast_mul f t = Ok r.
Proof.
  intros H. unfold broadcast_mul.
  destruct (Nat.eqb (length f) (length t)) eqn:E1; [eexists; reflexivity|].
  destruct (Nat.eqb (length f) 1) eqn:E2; [eexists; reflexivity|].
  destruct (Nat.eqb (length t) 1) eqn:E3; [eexists; reflexivity|].
  apply Nat.eqb_neq in E1, E2, E3. lia.
Qed.

Lemma broadcast_mul_err (f : list Q) (t : list xR) :
  ~ (length f = length t \/ length f = 1 \/ length t = 1) ->
  broadcast_mul f t = Err "RuntimeError"%string.
Proof.
  intros H. unfold broadcast_mul.
  destruct (Nat.eqb (length f) (length t)) eqn:E1;
    [apply Nat.eqb_eq in E1; exfalso; tauto|].
  destruct (Nat.eqb (length f) 1) eqn:E2; [apply Nat.eqb_eq in E2; exfalso; tauto|].
  destruct (Nat.eqb (length t) 1) eqn:E3; [apply Nat.eqb_eq in E3; exfalso; tauto|].
  reflexivity.
Qed.

Lemma log_posterior_err (pri : list Q) (cp : list (list xQ)) (f : list Q) (c : nat) (e : string) :
  log_posterior pri cp f c = Err e -> e = "KeyError"%string \/ e = "RuntimeError"%string.
Proof.
  unfold log_posterior. destruct (nth_error cp c) as [cpc|]; cbn [rbind].
  - unfold broadcast_mul.
    destruct (Nat.eqb _ _); [discriminate|]. destruct (Nat.eqb _ _); [discriminate|].
    destruct (Nat.eqb _ _); [discriminate|]. cbn [rbind]. intros H. injection H as <-. auto.
  - intros H. injection H as <-. auto.
Qed.

Lemma loop_err (pri : list Q) (cp : list (list xQ)) (f : list Q) (cs : list nat) (e : string) :
  log_posteriors_loop pri cp f cs = Err e -> e = "KeyError"%string \/ e = "RuntimeError"%string.
Proof.
  induction cs as [|c cs IH]; simpl; [discriminate|].
  destruct (log_posterior pri cp f c) as [lp|e'] eqn:E; cbn [rbind].
  - destruct (log_posteriors_loop pri cp f cs) as [lps|e'']; cbn [rbind]; [discriminate|].
    intros H. injection H as <-. apply IH. reflexivity.
  - intros H. injection H as <-. exact (log_posterior_err _ _ _ _ _ E).
Qed.

Lemma loop_all_ok (pri : list Q) (cp : list (list xQ)) (f : list Q) (cs : list nat) :
  (forall c, In c cs -> exists y, log_posterior pri cp f c = Ok y) ->
  exists lps, log_posteriors_loop pri cp f cs = Ok lps /\ length lps = length cs.
Proof.
  induction cs as [|c cs IH]; intros H; simpl; [exists []; split; reflexivity|].
  destruct (H c (or_introl eq_refl)) as [y Hy]. rewrite Hy. cbn [rbind].
  destruct IH as [lps [Hl Hlen]]; [intros c' Hc'; apply H; right; exact Hc'|].
  rewrite Hl. cbn [rbind]. exists (y :: lps). split; [reflexivity|simpl; lia].
Qed.

(** The shape of a trained model. *)
Lemma trained_model_shape (F : tensor2) (labels : list nat) (delta : Q) :
  tensor2_wf F -> labels <> [] ->
  exists pri cp,
    class_priors (trained_model F labels delta) = Some pri /\
    conditional_probabilities (trained_model F labels delta) = Some cp /\
    length pri = S (list_max labels) /\ length cp = S (list_max labels) /\
    (forall c, c <= list_max labels ->
       exists cpc, nth_error cp c = Some cpc /\ length cpc = ncols F).
Proof.
  intros Hwf Hne. do 2 eexists. split; [reflexivity|]. split; [reflexivity|].
  rewrite estimate_class_priors_eq by exact Hne.
  split; [rewrite length_map, length_seq; reflexivity|].
  rewrite map_map. split; [rewrite length_map, length_seq; reflexivity|].
  intros c Hc. rewrite nth_error_map_seq by lia. eexists. split; [reflexivity|].
  unfold smooth. rewrite length_map.
  exact (proj1 (class_word_counts F labels c Hwf)).
Qed.

Lemma trained_model_truthy (F : tensor2) (labels : list nat) (delta : Q) :
  labels <> [] ->
  truthy (class_priors (trained_model F labels delta)) = true /\
  truthy (conditional_probabilities (trained_model F labels delta)) = true.
Proof.
  intros Hne. simpl. rewrite estimate_class_priors_eq by exact Hne. simpl.
  split; reflexivity.
Qed.

(** C5 (amended). [fit] stores [vocab_size], but no inference operation
    compares the feature length with it: on a model trained on at least
    two classes, [estimate_class_posteriors], [predict] and
    [predict_proba] accept a feature vector whose length equals
    [vocab_size] or 1, or any length when [vocab_size = 1] (tensor
    broadcasting); for every other length they raise the [RuntimeError]
    of the tensor product. *)
Theorem c5_no_dimension_check (st st' : NaiveBayes) (F : tensor2) (labels : list nat)
    (delta : Q) (f : list Q) :
  tensor2_wf F -> fit st F labels delta = (Ok tt, st') -> 1 <= list_max labels ->
  vocab_size st' = Some (ncols F) /\
  ((length f = ncols F \/ length f = 1 \/ ncols F = 1) ->
     (exists v, estimate_class_posteriors st' f = Ok v) /\
     (exists i, predict st' f = Ok i) /\
     (exists p, predict_proba st' f = Ok p)) /\
  (~ (length f = ncols F \/ length f = 1 \/ ncols F = 1) ->
     estimate_class_posteriors st' f = Err "RuntimeError"%string /\
     predict st' f = Err "RuntimeError"%string /\
     predict_proba st' f = Err "RuntimeError"%string).
Proof.
  intros Hwf Hfit Hm. apply fit_ok_inv in Hfit as [Hne [Hlen ->]].
  destruct (trained_model_shape F labels delta Hwf Hne)
    as [pri [cp [Hpri [Hcp [Hlp [Hlc Hcpc]]]]]].
  destruct (trained_model_truthy F labels delta Hne) as [Tp Tc].
  set (m := trained_model F labels delta) in *.
  split; [reflexivity|].
  assert (Hpred : forall r, estimate_class_posteriors m f = r ->
            predict m f = rbind r torch_argmax /\
            predict_proba m f = rbind r (fun v => Ok (softmax v))).
  { intros r Hr. unfold predict, predict_proba. rewrite Tp, Tc. cbn [negb orb].
    rewrite Hr. split; reflexivity. }
  split.
  - intros Hc.
    assert (Hall : forall c, In c (seq 0 (length pri)) ->
              exists y, log_posterior pri cp f c = Ok y).
    { intros c Hin. apply in_seq in Hin. destruct (Hcpc c ltac:(lia)) as [cpc [Hn Hl]].
      unfold log_posterior. rewrite Hn. cbn [rbind].
      destruct (broadcast_mul_ok f (map xlogQ cpc)) as [r Hr]; [rewrite length_map; lia|].
      rewrite Hr. cbn [rbind]. eexists; reflexivity. }
    destruct (loop_all_ok pri cp f _ Hall) as [lps [Hl Hlen']].
    rewrite length_seq in Hlen'.
    assert (Hest : exists v, estimate_class_posteriors m f = Ok v).
    { unfold estimate_class_posteriors. rewrite Hcp, Hpri, Hl. cbn [rbind]. unfold dict_get.
      destruct (nth_error lps 0) eqn:E0; [|apply nth_error_None in E0; lia].
      destruct (nth_error lps 1) eqn:E1; [|apply nth_error_None in E1; lia].
      cbn [rbind]. eexists; reflexivity. }
    destruct Hest as [v Hv]. destruct (Hpred _ Hv) as [Hp Hpp].
    split; [exists v; exact Hv|]. split.
    + rewrite Hp. destruct (estimate_shape m f v Hv) as [? [? [p0 [p1 [_ [_ [-> _]]]]]]].
      cbn [rbind torch_argmax]. eexists; reflexivity.
    + rewrite Hpp. eexists; reflexivity.
  - intros Hc.
    assert (Hest : estimate_class_posteriors m f = Err "RuntimeError"%string).
    { unfold estimate_class_posteriors. rewrite Hcp, Hpri, Hlp. cbn [seq log_posteriors_loop].
      destruct (Hcpc 0 ltac:(lia)) as [cpc [Hn Hl]].
      unfold log_posterior at 1. rewrite Hn. cbn [rbind].
      rewrite broadcast_mul_err by (rewrite length_map, Hl; exact Hc). reflexivity. }
    destruct (Hpred _ Hest) as [Hp Hpp]. rewrite Hp, Hpp.
    split; [exact Hest|]. split; reflexivity.
Qed.

(** C7 (amended). On a model never fitted, [estimate_class_posteriors]
    raises a [ValueError] and [predict] and [predict_proba] a plain
    [Exception]; after a successful [fit], none of these errors is
    raised (the calls can still raise a [KeyError] or a
    [RuntimeError]). *)
Theorem c7_untrained_errors (st st' : NaiveBayes) (F : tensor2) (labels : list nat)
    (delta : Q) (f : list Q) :
  fit st F labels delta = (Ok tt, st') ->
  estimate_class_posteriors NaiveBayes_init f = Err "ValueError"%string /\
  predict NaiveBayes_init f = Err "Exception"%string /\
  predict_proba NaiveBayes_init f = Err "Exception"%string /\
  estimate_class_posteriors st' f <> Err "ValueError"%string /\
  predict st' f <> Err "Exception"%string /\
  predict_proba st' f <> Err "Exception"%string.
Proof.
  intros Hfit. apply fit_ok_inv in Hfit as [Hne [_ ->]].
  destruct (trained_model_truthy F labels delta Hne) as [Tp Tc].
  assert (Hest : forall e, estimate_class_posteriors (trained_model F labels delta) f = Err e ->
            e = "KeyError"%string \/ e = "RuntimeError"%string).
  { intros e. unfold estimate_class_posteriors.
    cbn [class_priors conditional_probabilities trained_model].
    destruct (log_posteriors_loop _ _ f _) as [lps|e'] eqn:E; cbn [rbind].
    - unfold dict_get.
      destruct (nth_error lps 0); cbn [rbind]; [|intros H; injection H as <-; auto].
      destruct (nth_error lps 1); cbn [rbind]; [discriminate|intros H; injection H as <-; auto].
    - intros H. injection H as <-. exact (loop_err _ _ _ _ _ E). }
  split; [reflexivity|]. split; [reflexivity|]. split; [reflexivity|].
  split; [intros H; destruct (Hest _ H) as [E|E]; discriminate E|].
  split.
  - unfold predict. rewrite Tp, Tc. cbn [negb orb].
    case_eq (estimate_class_posteriors (trained_model F labels delta) f);
      [intros v Ev|intros e Ev]; cbn [rbind].
    + destruct v; simpl; discriminate.
    + intros H. injection H as He. subst e. destruct (Hest _ Ev) as [E|E]; discriminate E.
  - unfold predict_proba. rewrite Tp, Tc. cbn [negb orb].
    case_eq (estimate_class_posteriors (trained_model F labels delta) f);
      [intros v Ev|intros e Ev]; cbn [rbind]; [discriminate|].
    intros H. injection H as He. subst e. destruct (Hest _ Ev) as [E|E]; discriminate E.
Qed.

(* ------------------------------------------------------------------ *)
(** ** Vectorisation *)

Lemma injn_succ (n : nat) : (injn n + 1)%Q = injn (S n).
Proof.
  unfold injn, inject_Z, Qplus. simpl. f_equal. lia.
Qed.

Lemma setitem_ok {A} (l : list A) (i : nat) (x : A) :
  i < length l ->
  exists l', setitem l i x = Ok l' /\ length l' = length l /\
    forall j d, nth j l' d = if Nat.eq_dec j i then x else nth j l d.
Proof.
  revert i. induction l as [|y l IH]; intros i Hi; simpl in Hi; [lia|].
  destruct i as [|i]; simpl.
  - eexists. split; [reflexivity|]. split; [reflexivity|].
    intros [|j] d; reflexivity.
  - destruct (IH i ltac:(lia)) as [l' [Hs [Hl Hn]]]. rewrite Hs. cbn [rbind].
    eexists. split; [reflexivity|]. split; [simpl; lia|].
    intros [|j] d; simpl; [reflexivity|]. rewrite Hn.
    destruct (Nat.eq_dec j i), (Nat.eq_dec (S j) (S i)); try reflexivity; lia.
Qed.

Lemma setitem_map {A B} (g : A -> B) (l : list A) (i : nat) (x : A) :
  setitem (map g l) i (g x) = rbind (setitem l i x) (fun l' => Ok (map g l')).
Proof.
  revert i. induction l as [|y l IH]; intros [|i]; simpl; try reflexivity.
  rewrite IH. destruct (setitem l i x); reflexivity.
Qed.

Lemma bow_loop_filter (text : list string) (vocab : gmap string nat) (binary : bool)
    (v0 : list Q) :
  bow_loop (List.filter (in_vocab vocab) text) vocab binary v0 =
  bow_loop text vocab binary v0.
Proof.
  revert v0. induction text as [|word rest IH]; intros v0; simpl; [reflexivity|].
  unfold in_vocab at 1. destruct (vocab !! word) as [index|] eqn:E; simpl.
  - rewrite E. destruct (if binary then _ else _); cbn [rbind]; [apply IH|reflexivity].
  - apply IH.
Qed.

Lemma bow_loop_spec (text : list string) (vocab : gmap string nat) (binary : bool)
    (ns : list nat) :
  vocab_wf vocab -> length ns = size vocab ->
  exists ns',
    bow_loop text vocab binary (map injn ns) = Ok (map injn ns') /\
    length ns' = size vocab /\
    (forall t i, vocab !! t = Some i ->
       nth i ns' 0 = if binary then (if in_dec String.string_dec t text then 1 else nth i ns 0)
                     else nth i ns 0 + count_occ String.string_dec text t) /\
    (binary = true -> (forall n, In n ns -> n <= 1) -> forall n, In n ns' -> n <= 1).
Proof.
  intros [Hlt Hinj]. revert ns.
  induction text as [|word rest IH]; intros ns Hns; simpl.
  - exists ns. split; [reflexivity|]. split; [exact Hns|]. split; [|auto].
    intros t i _. destruct binary; [reflexivity|lia].
  - destruct (vocab !! word) as [index|] eqn:Ew.
    + assert (Hidx : index < length ns) by (rewrite Hns; exact (Hlt _ _ Ew)).
      set (newv := if binary then 1 else S (nth index ns 0)).
      destruct (setitem_ok ns index newv Hidx) as [ns1 [Hs [Hl1 Hn1]]].
      assert (Hstep : (if binary then setitem (map injn ns) index 1%Q
                       else let* x := getitem (map injn ns) index in
                            setitem (map injn ns) index (x + 1)%Q) = Ok (map injn ns1)).
      { destruct binary.
        - change 1%Q with (injn 1). subst newv. rewrite setitem_map, Hs. reflexivity.
        - unfold getitem. rewrite nth_error_map.
          rewrite (nth_error_nth' ns 0 Hidx). cbn [option_map rbind].
          rewrite injn_succ, setitem_map. subst newv. rewrite Hs. reflexivity. }
      rewrite Hstep. cbn [rbind].
      destruct (IH ns1 ltac:(lia)) as [ns' [Hr [Hl' [Hn' Hb']]]].
      exists ns'. split; [exact Hr|]. split; [exact Hl'|]. split.
      * intros t i Ht. rewrite (Hn' t i Ht), (Hn1 i 0). cbn [count_occ].
        destruct (String.string_dec word t) as [<-|Hne].
        -- rewrite Ew in Ht. injection Ht as <-.
           destruct (Nat.eq_dec index index) as [_|]; [|congruence]. subst newv.
           destruct binary.
           ++ destruct (in_dec String.string_dec word rest);
              destruct (in_dec String.string_dec word (word :: rest)) as [|Hn]; try reflexivity;
              exfalso; apply Hn; left; reflexivity.
           ++ lia.
        -- destruct (Nat.eq_dec i index) as [->|Hi].
           ++ exfalso. apply Hne. exact (Hinj _ _ _ Ew Ht).
           ++ destruct binary; [|reflexivity].
              destruct (in_dec String.string_dec t rest) as [Hin|Hnin];
              destruct (in_dec String.string_dec t (word :: rest)) as [Hin'|Hnin'];
                try reflexivity; exfalso;
                first [ apply Hnin'; right; exact Hin
                      | destruct Hin' as [E|E]; [exact (Hne E)|exact (Hnin E)] ].
      * intros Hbin Hle. apply Hb'; [exact Hbin|].
        intros n Hn. apply In_nth with (d := 0) in Hn as [j [Hj <-]].
        rewrite Hn1. destruct (Nat.eq_dec j index).
        -- subst newv. rewrite Hbin. lia.
        -- apply Hle. apply nth_In. lia.
    + destruct (IH ns Hns) as [ns' [Hr [Hl' [Hn' Hb']]]].
      exists ns'. split; [exact Hr|]. split; [exact Hl'|]. split; [|exact Hb'].
      intros t i Ht. rewrite (Hn' t i Ht). cbn [count_occ].
      destruct (String.string_dec word t) as [<-|Hne]; [congruence|].
      destruct binary; [|reflexivity].
      destruct (in_dec String.string_dec t rest) as [Hin|Hnin];
      destruct (in_dec String.string_dec t (word :: rest)) as [Hin'|Hnin'];
        try reflexivity; exfalso;
        first [ apply Hnin'; right; exact Hin
              | destruct Hin' as [E|E]; [exact (Hne E)|exact (Hnin E)] ].
Qed.

(** C8. For every token list and every vocabulary (distinct words with
    distinct indices below its size, as [build_vocab] builds them),
    [bag_of_words] raises nothing and returns a vector of length
    [len(vocab)] whose entry [vocab[t]] is, in binary mode, 1 if [t]
    occurs in the tokens and 0 otherwise, and in count mode the number of
    occurrences of [t]; every entry is a non-negative integer, at most 1
    in binary mode; and dropping the tokens absent from the vocabulary
    gives the same result. *)
Theorem c8_bag_of_words (text : list string) (vocab : gmap string nat) (binary : bool) :
  vocab_wf vocab ->
  exists v,
    bag_of_words text vocab binary = Ok v /\
    length v = size vocab /\
    (forall t i, vocab !! t = Some i ->
       nth i v 0%Q =
       if binary then (if in_dec String.string_dec t text then 1%Q else 0%Q)
       else inject_Z (Z.of_nat (count_occ String.string_dec text t))) /\
    (forall x, In x v -> exists n : nat, x = inject_Z (Z.of_nat n) /\ (binary = true -> n <= 1)) /\
    bag_of_words (List.filter (in_vocab vocab) text) vocab binary = Ok v.
Proof.
  intros Hwf.
  assert (Hz : repeat 0%Q (size vocab) = map injn (repeat 0 (size vocab))).
  { rewrite map_repeat. reflexivity. }
  destruct (bow_loop_spec text vocab binary (repeat 0 (size vocab)) Hwf (repeat_length _ _))
    as [ns' [Hr [Hl [Hn Hb]]]].
  exists (map injn ns'). unfold bag_of_words. rewrite Hz.
  split; [exact Hr|]. split; [rewrite length_map; exact Hl|]. split; [|split].
  - intros t i Ht. change 0%Q with (injn 0). rewrite map_nth, (Hn t i Ht), nth_repeat.
    destruct binary; [|reflexivity].
    destruct (in_dec String.string_dec t text); reflexivity.
  - intros x Hx. apply in_map_iff in Hx as [n [<- Hin]].
    exists n. split; [reflexivity|]. intros Hbin. apply (Hb Hbin); [|exact Hin].
    intros m Hm. apply repeat_spec in Hm. lia.
  - rewrite bow_loop_filter. exact Hr.
Qed.

(** [build_vocab] produces vocabularies as the data model describes them. *)
Lemma build_vocab_words_wf (ws : list string) (vocab : gmap string nat) (index : nat) :
  size vocab = index -> vocab_wf vocab ->
  size (fst (build_vocab_words ws vocab index)) = snd (build_vocab_words ws vocab index) /\
  vocab_wf (fst (build_vocab_words ws vocab index)).
Proof.
  revert vocab index. induction ws as [|word rest IH]; intros vocab index Hs [Hlt Hinj];
    simpl; [split; [exact Hs|split; assumption]|].
  destruct (vocab !! word) as [j|] eqn:Ew; [apply IH; [exact Hs|split; assumption]|].
  apply IH.
  - rewrite (map_size_insert_None word index vocab Ew). lia.
  - unfold vocab_wf. rewrite (map_size_insert_None word index vocab Ew). split.
    + intros t i Ht. apply lookup_insert_Some in Ht as [[_ <-]|[_ Ht]]; [lia|].
      specialize (Hlt _ _ Ht). lia.
    + intros t1 t2 i H1 H2.
      apply lookup_insert_Some in H1 as [[<- <-]|[Hne1 H1]];
      apply lookup_insert_Some in H2 as [[<- E]|[Hne2 H2]]; try reflexivity.
      * specialize (Hlt _ _ H2). lia.
      * subst i. specialize (Hlt _ _ H1). lia.
      * exact (Hinj _ _ _ H1 H2).
Qed.

Lemma build_vocab_wf (examples : list SentimentExample) : vocab_wf (build_vocab examples).
Proof.
  unfold build_vocab.
  assert (H : forall exs vocab index, size vocab = index -> vocab_wf vocab ->
            vocab_wf (fst (build_vocab_loop exs vocab index))).
  { induction exs as [|ex exs IH]; intros vocab index Hs Hwf; simpl; [exact Hwf|].
    destruct (build_vocab_words_wf (words ex) vocab index Hs Hwf) as [Hs' Hwf'].
    destruct (build_vocab_words (words ex) vocab index) as [v' i'] eqn:E.
    apply IH; assumption. }
  apply H; [reflexivity|].
  split; intros t; [intros i Hi|intros t2 i Hi]; rewrite lookup_empty in Hi; discriminate.
Qed.

(* ------------------------------------------------------------------ *)
(** ** Instances of the theorems on the running example *)

Lemma c4_fit_eq : fit NaiveBayes_init c4_features [1; 0]%nat 1%Q = (Ok tt, c4_model).
Proof. vm_compute. reflexivity. Qed.

Lemma c4_features_wf : tensor2_wf c4_features.
Proof. repeat constructor. Qed.

(** C3 on the running example. *)
Lemma c3_witness :
  [1; 0]%nat <> [] /\
  exists pri,
    class_priors (snd (fit NaiveBayes_init c4_features [1; 0]%nat 1%Q)) = Some pri /\
    length pri = S (list_max [1; 0]%nat) /\
    (forall c, c <= list_max [1; 0]%nat ->
       (nth c pri 0 == inject_Z (Z.of_nat (count_occ Nat.eq_dec [1; 0]%nat c)) /
                       inject_Z (Z.of_nat (length [1; 0]%nat)))%Q) /\
    (qsum pri == 1)%Q /\
    (forall c, c <= list_max [1; 0]%nat -> count_occ Nat.eq_dec [1; 0]%nat c = 0 ->
       (nth c pri 0 == 0)%Q).
Proof.
  split; [discriminate|].
  apply (c3_class_priors NaiveBayes_init c4_features [1; 0]%nat 1%Q). discriminate.
Defined.

(** C2 on the running example. *)
Lemma c2_witness :
  tensor2_wf c4_features /\
  fit NaiveBayes_init c4_features [1; 0]%nat 1%Q = (Ok tt, c4_model) /\
  exists cp,
    conditional_probabilities c4_model = Some cp /\
    length cp = S (list_max [1; 0]%nat) /\
    forall c, c <= list_max [1; 0]%nat ->
      length (nth c cp []) = ncols c4_features /\
      (~ (count_c c4_features [1; 0]%nat c
          + 1 * inject_Z (Z.of_nat (ncols c4_features)) == 0)%Q ->
         exists ps, nth c cp [] = map QFin ps /\
           forall w, w < ncols c4_features ->
             (nth w ps 0 ==
              (count_cw c4_features [1; 0]%nat c w + 1) /
              (count_c c4_features [1; 0]%nat c
               + 1 * inject_Z (Z.of_nat (ncols c4_features))))%Q) /\
      ((count_c c4_features [1; 0]%nat c
        + 1 * inject_Z (Z.of_nat (ncols c4_features)) == 0)%Q ->
         forall w, w < ncols c4_features ->
           ((0 < count_cw c4_features [1; 0]%nat c w + 1)%Q ->
              nth w (nth c cp []) QNaN = QPInf) /\
           ((count_cw c4_features [1; 0]%nat c w + 1 == 0)%Q ->
              nth w (nth c cp []) QNaN = QNaN) /\
           ((count_cw c4_features [1; 0]%nat c w + 1 < 0)%Q ->
              nth w (nth c cp []) QNaN = QNInf)) /\
      ((0 < 1)%Q -> 0 < ncols c4_features -> features_nonneg c4_features ->
         exists ps, nth c cp [] = map QFin ps /\
           (forall w, w < ncols c4_features -> (0 < nth w ps 0)%Q) /\
           (qsum ps == 1)%Q).
Proof.
  split; [exact c4_features_wf|]. split; [exact c4_fit_eq|].
  apply (c2_conditional_probabilities NaiveBayes_init c4_model c4_features [1; 0]%nat 1%Q).
  - exact c4_features_wf.
  - exact c4_fit_eq.
Defined.

(** C5 on the running example, with a feature of the right length. *)
Lemma c5_witness :
  tensor2_wf c4_features /\
  fit NaiveBayes_init c4_features [1; 0]%nat 1%Q = (Ok tt, c4_model) /\
  1 <= list_max [1; 0]%nat /\
  vocab_size c4_model = Some (ncols c4_features) /\
  ((length [0; 0; 1]%Q = ncols c4_features \/ length [0; 0; 1]%Q = 1 \/ ncols c4_features = 1) ->
     (exists v, estimate_class_posteriors c4_model [0; 0; 1]%Q = Ok v) /\
     (exists i, predict c4_model [0; 0; 1]%Q = Ok i) /\
     (exists p, predict_proba c4_model [0; 0; 1]%Q = Ok p)) /\
  (~ (length [0; 0; 1]%Q = ncols c4_features \/ length [0; 0; 1]%Q = 1 \/ ncols c4_features = 1) ->
     estimate_class_posteriors c4_model [0; 0; 1]%Q = Err "RuntimeError"%string /\
     predict c4_model [0; 0; 1]%Q = Err "RuntimeError"%string /\
     predict_proba c4_model [0; 0; 1]%Q = Err "RuntimeError"%string).
Proof.
  split; [exact c4_features_wf|]. split; [exact c4_fit_eq|]. split; [simpl; lia|].
  apply (c5_no_dimension_check NaiveBayes_init c4_model c4_features [1; 0]%nat 1%Q [0; 0; 1]%Q).
  - exact c4_features_wf.
  - exact c4_fit_eq.
  - simpl; lia.
Defined.

(** C7 on the running example. *)
Lemma c7_witness :
  fit NaiveBayes_init c4_features [1; 0]%nat 1%Q = (Ok tt, c4_model) /\
  estimate_class_posteriors NaiveBayes_init [0; 0; 1]%Q = Err "ValueError"%string /\
  predict NaiveBayes_init [0; 0; 1]%Q = Err "Exception"%string /\
  predict_proba NaiveBayes_init [0; 0; 1]%Q = Err "Exception"%string /\
  estimate_class_posteriors c4_model [0; 0; 1]%Q <> Err "ValueError"%string /\
  predict c4_model [0; 0; 1]%Q <> Err "Exception"%string /\
  predict_proba c4_model [0; 0; 1]%Q <> Err "Exception"%string.
Proof.
  split; [exact c4_fit_eq|].
  apply (c7_untrained_errors NaiveBayes_init c4_model c4_features [1; 0]%nat 1%Q [0; 0; 1]%Q).
  exact c4_fit_eq.
Defined.

(** C8 on the vocabulary built from the running example. *)
Lemma c8_witness :
  vocab_wf (build_vocab c4_examples) /\
  exists v,
    bag_of_words ["good"; "bad"; "good"; "film"]%string (build_vocab c4_examples) false = Ok v /\
    length v = size (build_vocab c4_examples) /\
    (forall t i, build_vocab c4_examples !! t = Some i ->
       nth i v 0%Q =
       if false then (if in_dec String.string_dec t ["good"; "bad"; "good"; "film"]%string
                      then 1%Q else 0%Q)
       else inject_Z (Z.of_nat (count_occ String.string_dec
                                  ["good"; "bad"; "good"; "film"]%string t))) /\
    (forall x, In x v -> exists n : nat, x = inject_Z (Z.of_nat n) /\ (false = true -> n <= 1)) /\
    bag_of_words (List.filter (in_vocab (build_vocab c4_examples))
                    ["good"; "bad"; "good"; "film"]%string)
      (build_vocab c4_examples) false = Ok v.
Proof.
  split; [exact (build_vocab_wf c4_examples)|].
  apply (c8_bag_of_words ["good"; "bad"; "good"; "film"]%string (build_vocab c4_examples) false).
  exact (build_vocab_wf c4_examples).
Defined.

(** C9 on the running example. *)
Lemma c9_witness :
  predict c4_model [0; 0; 1]%Q = Ok 0 /\
  exists v,
    estimate_class_posteriors c4_model [0; 0; 1]%Q = Ok v /\ 0 < length v /\
    ((forall j, j < length v -> is_nan (nth j v NaN) = false) ->
       (forall j, j < length v -> xle (nth j v NaN) (nth 0 v NaN) = true) /\
       (forall j, j < 0 -> xlt (nth j v NaN) (nth 0 v NaN) = true)) /\
    ((exists j, j < length v /\ is_nan (nth j v NaN) = true) ->
       is_nan (nth 0 v NaN) = true /\ (forall j, j < 0 -> is_nan (nth j v NaN) = false)).
Proof.
  split; [exact c4_predict|].
  apply (c9_predict_argmax c4_model [0; 0; 1]%Q 0). exact c4_predict.
Defined.

(* ------------------------------------------------------------------ *)
(** ** Reading the examples file *)

Lemma py_split_nonempty (sep : Z) (s : pystr) : py_split sep s <> [].
Proof.
  induction s as [|c s IH]; simpl; [discriminate|].
  destruct (c =? sep)%Z; [discriminate|].
  fold (py_split sep s). destruct (py_split sep s); [contradiction|discriminate].
Qed.

Lemma py_split_join (sep : Z) (s : pystr) :
  Forall (fun p => ~ In sep p) (py_split sep s) /\ join_sep sep (py_split sep s) = s.
Proof.
  induction s as [|c s IH]; [split; [repeat constructor; intros []|reflexivity]|].
  destruct IH as [IHf IHj]. unfold py_split. simpl. fold (py_split sep s).
  pose proof (py_split_nonempty sep s) as Hne.
  destruct (Z.eqb_spec c sep) as [->|Hc].
  - split; [constructor; [intros []|exact IHf]|].
    destruct (py_split sep s) as [|p ps]; [contradiction|]. simpl. f_equal. exact IHj.
  - destruct (py_split sep s) as [|p ps] eqn:E; [contradiction|].
    apply Forall_cons_iff in IHf as [Hp Hps]. subst s.
    split.
    + constructor; [|exact Hps]. intros [H|H]; [congruence|contradiction].
    + destruct ps; reflexivity.
Qed.

Lemma py_split_nosep (sep : Z) (s : pystr) : ~ In sep s -> py_split sep s = [s].
Proof.
  induction s as [|c s IH]; intros H; [reflexivity|].
  unfold py_split. simpl. fold (py_split sep s).
  destruct (Z.eqb_spec c sep) as [->|Hc]; [exfalso; apply H; left; reflexivity|].
  rewrite IH; [reflexivity|]. intros Hin. apply H. right. exact Hin.
Qed.

Lemma py_split_app (sep : Z) (a b : pystr) :
  ~ In sep a -> py_split sep (a ++ sep :: b) = a :: py_split sep b.
Proof.
  induction a as [|c a IH]; intros H.
  - unfold py_split. simpl. rewrite Z.eqb_refl. reflexivity.
  - unfold py_split. simpl. fold (py_split sep (a ++ sep :: b)).
    destruct (Z.eqb_spec c sep) as [->|Hc]; [exfalso; apply H; left; reflexivity|].
    rewrite IH; [reflexivity|]. intros Hin. apply H. right. exact Hin.
Qed.

(** [line.split("\t")] has exactly two parts iff the line has exactly
    one tab. *)
Lemma py_split_two (sep : Z) (s text lab : pystr) :
  py_split sep s = [text; lab] <->
  s = text ++ sep :: lab /\ ~ In sep text /\ ~ In sep lab.
Proof.
  split.
  - intros E. destruct (py_split_join sep s) as [Hf Hj]. rewrite E in Hf, Hj.
    apply Forall_cons_iff in Hf as [H1 Hf]. apply Forall_cons_iff in Hf as [H2 _].
    simpl in Hj. split; [symmetry; exact Hj|split; assumption].
  - intros [-> [H1 H2]]. rewrite py_split_app by exact H1.
    rewrite py_split_nosep by exact H2. reflexivity.
Qed.

Lemma read_loop_count (tokenize : pystr -> list string) (py_int : pystr -> option Z)
    (lines : list pystr) (exs : list SentimentExample) (pr : list skip_message) :
  length (fst (read_loop tokenize py_int lines exs pr)) +
  length (snd (read_loop tokenize py_int lines exs pr)) +
  length (List.filter blank_line lines) =
  length exs + length pr + length lines.
Proof.
  revert exs pr. induction lines as [|line0 rest IH]; intros exs pr; simpl; [lia|].
  unfold blank_line at 1.
  destruct (py_strip line0) as [|c cs] eqn:Es;
    [|destruct (py_split 9%Z (c :: cs)) as [|text [|lab [|x r]]];
      [| |destruct (py_int lab)|]];
    match goal with
    | |- context [read_loop _ _ rest ?e ?p] => pose proof (IH e p)
    end; rewrite ?length_app in *; simpl in *; lia.
Qed.

Lemma read_loop_examples (tokenize : pystr -> list string) (py_int : pystr -> option Z)
    (lines : list pystr) (exs : list SentimentExample) (pr : list skip_message)
    (e : SentimentExample) :
  In e (fst (read_loop tokenize py_int lines exs pr)) ->
  In e exs \/
  exists line text label_str,
    In line lines /\ py_strip line = text ++ 9%Z :: label_str /\
    ~ In 9%Z text /\ ~ In 9%Z label_str /\
    py_int label_str = Some (label e) /\ words e = tokenize text.
Proof.
  revert exs pr. induction lines as [|line0 rest IH]; intros exs pr H; simpl in H; [left; exact H|].
  destruct (py_strip line0) as [|c cs] eqn:Es.
  - destruct (IH _ _ H) as [Hin|[line [text [lab [Hl Hrest]]]]]; [left; exact Hin|].
    right. exists line, text, lab. split; [right; exact Hl|exact Hrest].
  - destruct (py_split 9%Z (c :: cs)) as [|text [|lab [|x r]]] eqn:Ep;
      try (destruct (IH _ _ H) as [Hin|[line [text' [lab' [Hl Hrest]]]]]; [left; exact Hin|];
           right; exists line, text', lab'; split; [right; exact Hl|exact Hrest]).
    destruct (py_int lab) as [l|] eqn:Ei;
      destruct (IH _ _ H) as [Hin|[line [text' [lab' [Hl Hrest]]]]];
      try (right; exists line, text', lab'; split; [right; exact Hl|exact Hrest]);
      [|left; exact Hin].
    apply in_app_or in Hin as [Hin|[<-|[]]]; [left; exact Hin|].
    right. exists line0, text, lab. apply py_split_two in Ep as [Ec [H1 H2]].
    rewrite Es, Ec. repeat split; [left; reflexivity|assumption|assumption|exact Ei].
Qed.

Lemma message_justified_cons (py_int : pystr -> option Z) (line : pystr)
    (lines : list pystr) (m : skip_message) :
  message_justified py_int lines m -> message_justified py_int (line :: lines) m.
Proof.
  destruct m as [l|l]; simpl.
  - intros [ln [H1 H2]]. exists ln. split; [right; exact H1|exact H2].
  - intros [ln [t [lb [H1 H2]]]]. exists ln, t, lb. split; [right; exact H1|exact H2].
Qed.

Lemma read_loop_messages (tokenize : pystr -> list string) (py_int : pystr -> option Z)
    (lines : list pystr) (exs : list SentimentExample) (pr : list skip_message)
    (m : skip_message) :
  In m (snd (read_loop tokenize py_int lines exs pr)) ->
  In m pr \/ message_justified py_int lines m.
Proof.
  revert exs pr. induction lines as [|line0 rest IH]; intros exs pr H; simpl in H; [left; exact H|].
  destruct (py_strip line0) as [|c cs] eqn:Es.
  { destruct (IH _ _ H) as [Hin|Hj]; [left; exact Hin|right; apply message_justified_cons; exact Hj]. }
  assert (Hmal : In m (pr ++ [MalformedLine (c :: cs)]) -> py_split 9%Z (c :: cs) <> [] ->
                 (forall text lab, py_split 9%Z (c :: cs) <> [text; lab]) ->
                 In m pr \/ message_justified py_int (line0 :: rest) m).
  { intros Hin _ Hn. apply in_app_or in Hin as [Hin|[<-|[]]]; [left; exact Hin|].
    right. exists line0. split; [left; reflexivity|]. split; [symmetry; exact Es|].
    split; [discriminate|]. intros [text [lab Hs]]. apply (Hn text lab).
    apply py_split_two. exact Hs. }
  revert H. destruct (py_split 9%Z (c :: cs)) as [|text [|lab [|x r]]] eqn:Ep; intros H.
  - exfalso. exact (py_split_nonempty _ _ Ep).
  - destruct (IH _ _ H) as [Hin|Hj]; [|right; apply message_justified_cons; exact Hj].
    apply Hmal; [exact Hin|discriminate|intros t l; discriminate].
  - destruct (py_int lab) as [l|] eqn:Ei;
      destruct (IH _ _ H) as [Hin|Hj]; try (right; apply message_justified_cons; exact Hj);
      [left; exact Hin|].
    apply in_app_or in Hin as [Hin|[<-|[]]]; [left; exact Hin|].
    right. apply py_split_two in Ep as [Ec [H1 H2]].
    exists line0, text, lab. split; [left; reflexivity|]. split; [symmetry; exact Es|].
    repeat split; assumption.
  - destruct (IH _ _ H) as [Hin|Hj]; [|right; apply message_justified_cons; exact Hj].
    apply Hmal; [exact Hin|discriminate|intros t l; discriminate].
Qed.

(** [read_sentiment_examples] accounts for every line: each line is
    either blank after stripping (skipped silently), or yields exactly
    one example, or exactly one printed message. *)
Theorem read_sentiment_examples_every_line (tokenize : pystr -> list string)
    (py_int : pystr -> option Z) (lines : list pystr) :
  length (fst (read_sentiment_examples tokenize py_int lines)) +
  length (snd (read_sentiment_examples tokenize py_int lines)) +
  length (List.filter blank_line lines) = length lines.
Proof.
  unfold read_sentiment_examples. rewrite read_loop_count. reflexivity.
Qed.

(** Every example [read_sentiment_examples] returns comes from a line
    that, stripped, is [text + "\t" + label_str] with no other tab,
    where [int(label_str)] is its label and [tokenize(text)] its words. *)
Theorem read_sentiment_examples_sound (tokenize : pystr -> list string)
    (py_int : pystr -> option Z) (lines : list pystr) (e : SentimentExample) :
  In e (fst (read_sentiment_examples tokenize py_int lines)) ->
  exists line text label_str,
    In line lines /\ py_strip line = text ++ 9%Z :: label_str /\
    ~ In 9%Z text /\ ~ In 9%Z label_str /\
    py_int label_str = Some (label e) /\ words e = tokenize text.
Proof.
  intros H. destruct (read_loop_examples tokenize py_int lines [] [] e H) as [[]|R]. exact R.
Qed.

(** Every message printed is justified: "malformed" for a non-blank
    stripped line without exactly one tab, "invalid label" for a line
    with one tab whose label part [int] rejects; the message carries the
    stripped line. *)
Theorem read_sentiment_examples_messages (tokenize : pystr -> list string)
    (py_int : pystr -> option Z) (lines : list pystr) (m : skip_message) :
  In m (snd (read_sentiment_examples tokenize py_int lines)) ->
  message_justified py_int lines m.
Proof.
  intros H. destruct (read_loop_messages tokenize py_int lines [] [] m H) as [[]|R]. exact R.
Qed.

(* ------------------------------------------------------------------ *)
(** ** Vocabulary indices *)

Lemma build_vocab_words_app (a b : list string) (vocab : gmap string nat) (index : nat) :
  build_vocab_words (a ++ b) vocab index =
  let '(vocab', index') := build_vocab_words a vocab index in
  build_vocab_words b vocab' index'.
Proof.
  revert vocab index. induction a as [|w a IH]; intros vocab index; [reflexivity|].
  simpl. destruct (vocab !! w); apply IH.
Qed.

Lemma build_vocab_loop_concat (exs : list SentimentExample) (vocab : gmap string nat)
    (index : nat) :
  build_vocab_loop exs vocab index = build_vocab_words (concat (map words exs)) vocab index.
Proof.
  revert vocab index. induction exs as [|ex exs IH]; intros vocab index; [reflexivity|].
  simpl. rewrite build_vocab_words_app.
  destruct (build_vocab_words (words ex) vocab index). apply IH.
Qed.

Lemma build_vocab_words_acc (ws : list string) (vocab : gmap string nat) (acc : list string) :
  (forall w i, vocab !! w = Some i <-> nth_error acc i = Some w) ->
  size vocab = length acc ->
  (forall w i, fst (build_vocab_words ws vocab (length acc)) !! w = Some i <->
               nth_error (first_occurrences_acc acc ws) i = Some w) /\
  size (fst (build_vocab_words ws vocab (length acc))) =
    length (first_occurrences_acc acc ws).
Proof.
  revert vocab acc. induction ws as [|word rest IH]; intros vocab acc Hrel Hs;
    [split; [exact Hrel|exact Hs]|].
  simpl. destruct (vocab !! word) as [j|] eqn:Ew.
  - destruct (in_dec String.string_dec word acc) as [_|Hn]; [apply IH; assumption|].
    exfalso. apply Hn. apply Hrel in Ew. exact (nth_error_In _ _ Ew).
  - assert (Hn : ~ In word acc).
    { intros Hin. apply In_nth_error in Hin as [j Hj]. apply Hrel in Hj. congruence. }
    destruct (in_dec String.string_dec word acc) as [Hin|_]; [contradiction|].
    replace (S (length acc)) with (length (acc ++ [word]))
      by (rewrite length_app; simpl; lia).
    apply IH.
    + intros w i. rewrite lookup_insert_Some. split.
      * intros [[<- <-]|[Hne Hw]].
        -- rewrite nth_error_app2 by lia. rewrite Nat.sub_diag. reflexivity.
        -- apply Hrel in Hw. rewrite nth_error_app1; [exact Hw|].
           apply nth_error_Some. congruence.
      * intros Hi. destruct (Nat.lt_ge_cases i (length acc)) as [Hlt|Hge].
        -- rewrite nth_error_app1 in Hi by exact Hlt. right. split; [|apply Hrel; exact Hi].
           intros <-. apply Hn. exact (nth_error_In _ _ Hi).
        -- rewrite nth_error_app2 in Hi by exact Hge.
           destruct (i - length acc) as [|k] eqn:Ek; simpl in Hi.
           ++ left. split; [congruence|lia].
           ++ destruct k; discriminate.
    + rewrite (map_size_insert_None word (length acc) vocab Ew), length_app, Hs.
      simpl. lia.
Qed.

(** [build_vocab] numbers the distinct words of the examples in the
    order of their first occurrence: a word has index [i] iff it is the
    [i]-th distinct word met, and the vocabulary has as many entries as
    there are distinct words. *)
Theorem build_vocab_first_occurrence (examples : list SentimentExample) :
  (forall w i, build_vocab examples !! w = Some i <->
               nth_error (first_occurrences (all_words examples)) i = Some w) /\
  size (build_vocab examples) = length (first_occurrences (all_words examples)).
Proof.
  unfold build_vocab, first_occurrences, all_words. rewrite build_vocab_loop_concat.
  apply (build_vocab_words_acc _ ∅ []).
  - intros w i. rewrite lookup_empty. destruct i; simpl; split; discriminate.
  - reflexivity.
Qed.

Lemma build_vocab_words_mono (ws : list string) (vocab : gmap string nat) (index : nat)
    (w : string) (j : nat) :
  vocab !! w = Some j -> fst (build_vocab_words ws vocab index) !! w = Some j.
Proof.
  revert vocab index. induction ws as [|word rest IH]; intros vocab index H; [exact H|].
  simpl. destruct (vocab !! word) as [k|] eqn:Ew; apply IH; [exact H|].
  rewrite lookup_insert_ne; [exact H|]. intros ->. congruence.
Qed.

(** Adding examples never changes an index [build_vocab] already gave:
    the vocabulary of [ex1] is contained in that of [ex1 + ex2]. *)
Theorem build_vocab_extend (ex1 ex2 : list SentimentExample) :
  build_vocab ex1 ⊆ build_vocab (ex1 ++ ex2).
Proof.
  apply map_subseteq_spec. intros w j H.
  unfold build_vocab in *. rewrite !build_vocab_loop_concat in *.
  rewrite map_app, concat_app, build_vocab_words_app.
  destruct (build_vocab_words (concat (map words ex1)) ∅ 0) as [v i] eqn:E.
  simpl in H. apply build_vocab_words_mono. exact H.
Qed.

(* ------------------------------------------------------------------ *)
(** ** [bag_of_words] on any vocabulary *)

Lemma setitem_oob {A} (l : list A) (i : nat) (x : A) :
  length l <= i -> setitem l i x = Err "IndexError"%string.
Proof.
  revert i. induction l as [|y l IH]; intros i Hi; [reflexivity|].
  destruct i as [|i]; simpl in Hi; [lia|]. simpl. rewrite IH by lia. reflexivity.
Qed.

Lemma getitem_oob {A} (l : list A) (i : nat) :
  length l <= i -> getitem l i = Err "IndexError"%string.
Proof. intros H. unfold getitem. apply nth_error_None in H. rewrite H. reflexivity. Qed.

(** One token found at [index]: the update of [bow_vector]. *)
Lemma bow_step_ok (binary : bool) (v0 : list Q) (index : nat) :
  index < length v0 ->
  exists v', (if binary then setitem v0 index 1%Q
              else let* x := getitem v0 index in setitem v0 index (x + 1)%Q) = Ok v' /\
             length v' = length v0.
Proof.
  intros Hi. destruct binary.
  - destruct (setitem_ok v0 index 1%Q Hi) as [v' [Hs [Hl _]]]. exists v'. split; assumption.
  - unfold getitem. destruct (nth_error v0 index) as [x|] eqn:Ex;
      [|apply nth_error_None in Ex; lia].
    destruct (setitem_ok v0 index (x + 1)%Q Hi) as [v' [Hs [Hl _]]].
    exists v'. split; [exact Hs|exact Hl].
Qed.

Lemma bow_step_oob (binary : bool) (v0 : list Q) (index : nat) :
  length v0 <= index ->
  (if binary then setitem v0 index 1%Q
   else let* x := getitem v0 index in setitem v0 index (x + 1)%Q) = Err "IndexError"%string.
Proof.
  intros Hi. destruct binary; [apply setitem_oob; exact Hi|].
  rewrite getitem_oob by exact Hi. reflexivity.
Qed.

Lemma bow_loop_outcome (text : list string) (vocab : gmap string nat) (binary : bool)
    (v0 : list Q) :
  (exists v, bow_loop text vocab binary v0 = Ok v /\ length v = length v0 /\
     forall t i, In t text -> vocab !! t = Some i -> i < length v0) \/
  (bow_loop text vocab binary v0 = Err "IndexError"%string /\
     exists t i, In t text /\ vocab !! t = Some i /\ length v0 <= i).
Proof.
  revert v0. induction text as [|word rest IH]; intros v0.
  - left. exists v0. split; [reflexivity|]. split; [reflexivity|]. intros t i [].
  - cbn [bow_loop]. destruct (vocab !! word) as [index|] eqn:Ew.
    + destruct (Nat.lt_ge_cases index (length v0)) as [Hlt|Hge].
      * destruct (bow_step_ok binary v0 index Hlt) as [v' [Hs Hl]]. rewrite Hs. cbn [rbind].
        destruct (IH v') as [[v [H1 [H2 H3]]]|[H1 [t [i [H2 [H3 H4]]]]]].
        -- left. exists v. split; [exact H1|]. split; [congruence|].
           intros t i [<-|Ht] Hti; [congruence|]. rewrite <- Hl. exact (H3 t i Ht Hti).
        -- right. split; [exact H1|]. exists t, i. split; [right; exact H2|].
           split; [exact H3|]. lia.
      * rewrite bow_step_oob by exact Hge. cbn [rbind]. right. split; [reflexivity|].
        exists word, index. split; [left; reflexivity|]. split; assumption.
    + destruct (IH v0) as [[v [H1 [H2 H3]]]|[H1 [t [i [H2 [H3 H4]]]]]].
      * left. exists v. split; [exact H1|]. split; [exact H2|].
        intros t i [<-|Ht] Hti; [congruence|]. exact (H3 t i Ht Hti).
      * right. split; [exact H1|]. exists t, i. split; [right; exact H2|]. split; assumption.
Qed.

(** [bag_of_words] raises only [IndexError], exactly when a token of
    the text has an index of at least [len(vocab)] in the vocabulary;
    otherwise it returns a vector of [len(vocab)] entries. *)
Theorem bag_of_words_index_error (text : list string) (vocab : gmap string nat)
    (binary : bool) :
  (forall e, bag_of_words text vocab binary = Err e -> e = "IndexError"%string) /\
  (bag_of_words text vocab binary = Err "IndexError"%string <->
   exists t i, In t text /\ vocab !! t = Some i /\ size vocab <= i) /\
  (indices_in_range vocab text ->
   exists v, bag_of_words text vocab binary = Ok v /\ length v = size vocab).
Proof.
  unfold bag_of_words, indices_in_range.
  destruct (bow_loop_outcome text vocab binary (repeat 0%Q (size vocab)))
    as [[v [H1 [H2 H3]]]|[H1 [t [i [H2 [H3 H4]]]]]]; rewrite repeat_length in *.
  - rewrite H1. split; [intros e E; discriminate|]. split.
    + split; [discriminate|]. intros [t [i [Ht [Hti Hge]]]]. specialize (H3 t i Ht Hti). lia.
    + intros _. exists v. split; [reflexivity|exact H2].
  - rewrite H1. split; [intros e E; injection E as <-; reflexivity|]. split.
    + split; [intros _; exists t, i; repeat split; assumption|reflexivity].
    + intros Hr. specialize (Hr t i H2 H3). lia.
Qed.

Lemma count_index_cons (vocab : gmap string nat) (t : string) (text : list string) (i : nat) :
  count_index vocab (t :: text) i =
  (if bool_decide (vocab !! t = Some i) then 1 else 0) + count_index vocab text i.
Proof. unfold count_index. simpl. destruct (bool_decide _); reflexivity. Qed.

Lemma bow_loop_count (text : list string) (vocab : gmap string nat) (ns : list nat) :
  (forall t i, In t text -> vocab !! t = Some i -> i < length ns) ->
  exists ns', bow_loop text vocab false (map injn ns) = Ok (map injn ns') /\
    length ns' = length ns /\
    forall i, nth i ns' 0 = nth i ns 0 + count_index vocab text i.
Proof.
  revert ns. induction text as [|word rest IH]; intros ns Hr.
  - exists ns. split; [reflexivity|]. split; [reflexivity|].
    intros i. unfold count_index. simpl. lia.
  - cbn [bow_loop]. destruct (vocab !! word) as [index|] eqn:Ew.
    + assert (Hlt : index < length ns) by (apply (Hr word); [left|]; auto).
      unfold getitem. rewrite nth_error_map.
      destruct (nth_error ns index) as [n|] eqn:En; [|apply nth_error_None in En; lia].
      cbn [option_map rbind]. rewrite injn_succ, setitem_map.
      destruct (setitem_ok ns index (S n) Hlt) as [ns1 [Hs [Hl Hn]]]. rewrite Hs. cbn [rbind].
      destruct (IH ns1) as [ns' [H1 [H2 H3]]].
      { intros t i Ht Hti. rewrite Hl. apply (Hr t); [right|]; assumption. }
      exists ns'. split; [exact H1|]. split; [congruence|].
      intros i. rewrite H3, Hn, count_index_cons.
      apply (nth_error_nth ns index 0) in En.
      destruct (Nat.eq_dec i index) as [->|Hne].
      * rewrite bool_decide_true by exact Ew. lia.
      * rewrite bool_decide_false by congruence. lia.
    + destruct (IH ns) as [ns' [H1 [H2 H3]]].
      { intros t i Ht Hti. apply (Hr t); [right|]; assumption. }
      exists ns'. split; [exact H1|]. split; [exact H2|].
      intros i. rewrite H3, count_index_cons, bool_decide_false by congruence. lia.
Qed.

Lemma bow_loop_binary (text : list string) (vocab : gmap string nat) (ns : list nat) :
  (forall t i, In t text -> vocab !! t = Some i -> i < length ns) ->
  exists ns', bow_loop text vocab true (map injn ns) = Ok (map injn ns') /\
    length ns' = length ns /\
    forall i, nth i ns' 0 =
      if existsb (fun t => bool_decide (vocab !! t = Some i)) text then 1 else nth i ns 0.
Proof.
  revert ns. induction text as [|word rest IH]; intros ns Hr.
  - exists ns. split; [reflexivity|]. split; [reflexivity|]. intros i. reflexivity.
  - cbn [bow_loop]. destruct (vocab !! word) as [index|] eqn:Ew.
    + assert (Hlt : index < length ns) by (apply (Hr word); [left|]; auto).
      change 1%Q with (injn 1). rewrite setitem_map.
      destruct (setitem_ok ns index 1 Hlt) as [ns1 [Hs [Hl Hn]]]. rewrite Hs. cbn [rbind].
      destruct (IH ns1) as [ns' [H1 [H2 H3]]].
      { intros t i Ht Hti. rewrite Hl. apply (Hr t); [right|]; assumption. }
      exists ns'. split; [exact H1|]. split; [congruence|].
      intros i. rewrite H3, Hn. simpl.
      destruct (Nat.eq_dec i index) as [->|Hne].
      * rewrite bool_decide_true by exact Ew. simpl.
        destruct (existsb _ rest); reflexivity.
      * rewrite bool_decide_false by congruence. reflexivity.
    + destruct (IH ns) as [ns' [H1 [H2 H3]]].
      { intros t i Ht Hti. apply (Hr t); [right|]; assumption. }
      exists ns'. split; [exact H1|]. split; [exact H2|].
      intros i. rewrite H3. simpl. rewrite bool_decide_false by congruence. reflexivity.
Qed.

Lemma repeat_zero_injn (n : nat) : repeat 0%Q n = map injn (repeat 0 n).
Proof. rewrite map_repeat. reflexivity. Qed.

Lemma map_nth_seq_eq {A} (l : list A) (f : nat -> A) (n : nat) (d : A) :
  length l = n -> (forall i, i < n -> nth i l d = f i) -> l = map f (seq 0 n).
Proof.
  intros Hl Hf. rewrite <- (map_nth_seq_id l n d Hl) at 1.
  apply map_ext_in. intros i Hi. apply in_seq in Hi. apply Hf. lia.
Qed.

Lemma bag_of_words_count_eq (text : list string) (vocab : gmap string nat) :
  indices_in_range vocab text ->
  bag_of_words text vocab false =
  Ok (map (fun i => injn (count_index vocab text i)) (seq 0 (size vocab))).
Proof.
  intros Hr. unfold bag_of_words. rewrite repeat_zero_injn.
  destruct (bow_loop_count text vocab (repeat 0 (size vocab))) as [ns' [H1 [H2 H3]]].
  { rewrite repeat_length. exact Hr. }
  rewrite H1. f_equal.
  rewrite (map_nth_seq_eq ns' (fun i => count_index vocab text i) (size vocab) 0).
  - rewrite map_map. reflexivity.
  - rewrite H2, repeat_length. reflexivity.
  - intros i Hi. rewrite H3, nth_repeat. reflexivity.
Qed.

(** In count mode, on any vocabulary whose indices for the tokens of the
    text are in range, entry [i] of [bag_of_words] is the number of
    tokens the vocabulary maps to [i] (words sharing an index add up). *)
Theorem bag_of_words_count_mode (text : list string) (vocab : gmap string nat) :
  indices_in_range vocab text ->
  bag_of_words text vocab false =
  Ok (map (fun i => injn (count_index vocab text i)) (seq 0 (size vocab))).
Proof. exact (bag_of_words_count_eq text vocab). Qed.

(** In binary mode, under the same condition, entry [i] is 1 if some
    token of the text is mapped to [i] and 0 otherwise. *)
Theorem bag_of_words_binary_mode (text : list string) (vocab : gmap string nat) :
  indices_in_range vocab text ->
  bag_of_words text vocab true =
  Ok (map (fun i => if existsb (fun t => bool_decide (vocab !! t = Some i)) text
                    then 1%Q else 0%Q) (seq 0 (size vocab))).
Proof.
  intros Hr. unfold bag_of_words. rewrite repeat_zero_injn.
  destruct (bow_loop_binary text vocab (repeat 0 (size vocab))) as [ns' [H1 [H2 H3]]].
  { rewrite repeat_length. exact Hr. }
  rewrite H1. f_equal.
  rewrite (map_nth_seq_eq ns'
             (fun i => if existsb (fun t => bool_decide (vocab !! t = Some i)) text
                       then 1 else 0) (size vocab) 0).
  - rewrite map_map. apply map_ext. intros i. destruct (existsb _ _); reflexivity.
  - rewrite H2, repeat_length. reflexivity.
  - intros i Hi. rewrite H3, nth_repeat. reflexivity.
Qed.

Lemma injn_add (a b : nat) : (injn (a + b) == injn a + injn b)%Q.
Proof. unfold injn. rewrite Nat2Z.inj_add, inject_Z_plus. reflexivity. Qed.

Lemma count_index_app (vocab : gmap string nat) (t1 t2 : list string) (i : nat) :
  count_index vocab (t1 ++ t2) i = count_index vocab t1 i + count_index vocab t2 i.
Proof. unfold count_index. rewrite List.filter_app, length_app. reflexivity. Qed.

(** In count mode, the vector of a concatenation of two texts is the
    sum of their vectors. *)
Theorem bag_of_words_count_app (t1 t2 : list string) (vocab : gmap string nat) :
  indices_in_range vocab (t1 ++ t2) ->
  exists v1 v2 v,
    bag_of_words t1 vocab false = Ok v1 /\ bag_of_words t2 vocab false = Ok v2 /\
    bag_of_words (t1 ++ t2) vocab false = Ok v /\
    length v = size vocab /\
    forall i, (nth i v 0 == nth i v1 0 + nth i v2 0)%Q.
Proof.
  intros Hr.
  assert (H1 : indices_in_range vocab t1)
    by (intros t i Ht; apply Hr; apply in_or_app; left; exact Ht).
  assert (H2 : indices_in_range vocab t2)
    by (intros t i Ht; apply Hr; apply in_or_app; right; exact Ht).
  do 3 eexists. split; [exact (bag_of_words_count_eq t1 vocab H1)|].
  split; [exact (bag_of_words_count_eq t2 vocab H2)|].
  split; [exact (bag_of_words_count_eq (t1 ++ t2) vocab Hr)|].
  split; [rewrite length_map, length_seq; reflexivity|].
  intros i. destruct (Nat.lt_ge_cases i (size vocab)) as [Hi|Hi].
  - rewrite !nth_map_seq by exact Hi. rewrite count_index_app. apply injn_add.
  - rewrite !nth_overflow by (rewrite length_map, length_seq; exact Hi). reflexivity.
Qed.

Lemma list_sum_map_add {A} (f g : A -> nat) (l : list A) :
  list_sum (map (fun x => f x + g x) l) = list_sum (map f l) + list_sum (map g l).
Proof. induction l as [|x l IH]; simpl; [reflexivity|]. rewrite IH. lia. Qed.

Lemma list_sum_map_zero {A} (l : list A) : list_sum (map (fun _ => 0) l) = 0.
Proof. induction l as [|x l IH]; [reflexivity|exact IH]. Qed.

Lemma count_index_total (text : list string) (vocab : gmap string nat) :
  indices_in_range vocab text ->
  list_sum (map (count_index vocab text) (seq 0 (size vocab))) =
  length (List.filter (in_vocab vocab) text).
Proof.
  induction text as [|t text IH]; intros Hr.
  - unfold count_index. simpl. induction (seq 0 (size vocab)); simpl; [reflexivity|].
    exact IHl.
  - assert (Hr' : indices_in_range vocab text)
      by (intros t' i Ht; apply Hr; right; exact Ht).
    rewrite (map_ext (count_index vocab (t :: text))
               (fun i => (if bool_decide (vocab !! t = Some i) then 1 else 0) +
                         count_index vocab text i))
      by (intros i; apply count_index_cons).
    rewrite list_sum_map_add, IH by exact Hr'. simpl.
    destruct (in_vocab vocab t) eqn:Ei; unfold in_vocab in Ei;
      destruct (vocab !! t) as [k|] eqn:Et; try discriminate.
    + assert (Hk : k < size vocab) by (apply (Hr t); [left|]; auto).
      rewrite (map_ext _ (fun i => if Nat.eq_dec k i then 1 else 0)).
      * rewrite indicator_sum. destruct ((0 <=? k) && (k <? 0 + size vocab)) eqn:E;
          [simpl; reflexivity|].
        exfalso. apply andb_false_iff in E as [E|E];
          [apply Nat.leb_gt in E|apply Nat.ltb_ge in E]; lia.
      * intros i. destruct (Nat.eq_dec k i) as [->|Hne];
          [rewrite bool_decide_true by reflexivity; reflexivity|].
        rewrite bool_decide_false by congruence. reflexivity.
    + rewrite (map_ext _ (fun _ => 0)).
      * rewrite list_sum_map_zero. reflexivity.
      * intros i. rewrite bool_decide_false by congruence. reflexivity.
Qed.

(** In count mode the entries of [bag_of_words] add up to the number of
    tokens of the text found in the vocabulary. *)
Theorem bag_of_words_count_total (text : list string) (vocab : gmap string nat) :
  indices_in_range vocab text ->
  exists v, bag_of_words text vocab false = Ok v /\
    (qsum v == injn (length (List.filter (in_vocab vocab) text)))%Q.
Proof.
  intros Hr. eexists. split; [exact (bag_of_words_count_eq text vocab Hr)|].
  unfold injn. rewrite qsum_inject. rewrite count_index_total by exact Hr. reflexivity.
Qed.

(* ------------------------------------------------------------------ *)
(** ** Failed and degenerate training *)

(** [fit] with no labels raises the [RuntimeError] of [torch.max], after
    it has set [class_priors] to an empty dict and [vocab_size]; the
    conditional probabilities of an earlier training stay. The model is
    then unusable: [predict] and [predict_proba] raise their "not
    trained" [Exception], and [estimate_class_posteriors] a [KeyError]
    (a [ValueError] if the model had never been trained). *)
Theorem fit_empty_labels_state (st : NaiveBayes) (F : tensor2) (delta : Q) (f : list Q) :
  fit st F [] delta =
    (Err "RuntimeError"%string,
     {| class_priors := Some [];
        conditional_probabilities := conditional_probabilities st;
        vocab_size := Some (ncols F) |}) /\
  predict (snd (fit st F [] delta)) f = Err "Exception"%string /\
  predict_proba (snd (fit st F [] delta)) f = Err "Exception"%string /\
  estimate_class_posteriors (snd (fit st F [] delta)) f =
    Err (match conditional_probabilities st with
         | Some _ => "KeyError"%string
         | None => "ValueError"%string
         end).
Proof.
  assert (E : fit st F [] delta =
    (Err "RuntimeError"%string,
     {| class_priors := Some [];
        conditional_probabilities := conditional_probabilities st;
        vocab_size := Some (ncols F) |})) by reflexivity.
  rewrite E. split; [reflexivity|]. cbn [snd].
  split; [reflexivity|]. split; [reflexivity|].
  unfold estimate_class_posteriors. cbn [class_priors conditional_probabilities].
  destruct (conditional_probabilities st); reflexivity.
Qed.

(** [fit] with labels that do not match the rows of the features raises
    the [IndexError] of the boolean mask, after it has replaced the
    class priors (computed from the new labels) and [vocab_size]; the
    conditional probabilities of an earlier training stay, so the model
    mixes two trainings. *)
Theorem fit_mismatch_state (st : NaiveBayes) (F : tensor2) (labels : list nat) (delta : Q) :
  labels <> [] -> length labels <> length (rows F) ->
  fit st F labels delta =
    (Err "IndexError"%string,
     {| class_priors := Some (estimate_class_priors labels);
        conditional_probabilities := conditional_probabilities st;
        vocab_size := Some (ncols F) |}).
Proof.
  intros Hne Hlen. unfold fit, estimate_conditional_probabilities.
  destruct labels as [|l ls]; [contradiction|]. cbn [torch_max rbind].
  cbn [seq]. rewrite word_counts_loop_err by exact Hlen. reflexivity.
Qed.

Lemma filter_all_false {A} (g : A -> bool) (l : list A) :
  (forall x, In x l -> g x = false) -> List.filter g l = [].
Proof.
  induction l as [|x l IH]; intros H; [reflexivity|]. simpl.
  rewrite (H x (or_introl eq_refl)). apply IH. intros y Hy. apply H. right. exact Hy.
Qed.

Lemma class_rows_absent (F : tensor2) (labels : list nat) (c : nat) :
  count_occ Nat.eq_dec labels c = 0 -> class_rows F labels c = [].
Proof.
  intros H. unfold class_rows. rewrite filter_all_false; [reflexivity|].
  intros [r l] Hin. apply in_combine_r in Hin. apply Nat.eqb_neq. intros ->.
  apply (count_occ_not_In Nat.eq_dec labels c) in H. contradiction.
Qed.

Lemma qsum_repeat_zero (n : nat) : (qsum (repeat 0%Q n) == 0)%Q.
Proof. induction n as [|n IH]; simpl; [reflexivity|]. rewrite IH. reflexivity. Qed.

(** A class in [0 .. max(label)] without any training example gets the
    uniform distribution [1 / vocab_size] over the vocabulary, whatever
    the non-zero [delta]. *)
Theorem fit_unseen_class_uniform (st st' : NaiveBayes) (F : tensor2) (labels : list nat)
    (delta : Q) (c : nat) :
  fit st F labels delta = (Ok tt, st') ->
  c <= list_max labels -> count_occ Nat.eq_dec labels c = 0 -> ~ (delta == 0)%Q ->
  exists cp ps,
    conditional_probabilities st' = Some cp /\
    nth c cp [] = map QFin ps /\ length ps = ncols F /\
    forall w, w < ncols F -> (nth w ps 0 == 1 / inject_Z (Z.of_nat (ncols F)))%Q.
Proof.
  intros Hfit Hc Hcnt Hd. apply fit_ok_inv in Hfit as [Hne [Hlen ->]].
  set (D := (qsum (repeat 0%Q (ncols F)) + delta * inject_Z (Z.of_nat (ncols F)))%Q).
  exists (map (smooth delta (ncols F))
            (map (fun c => sum_dim0 (ncols F) (class_rows F labels c))
                 (seq 0 (S (list_max labels))))).
  exists (repeat ((0 + delta) / D)%Q (ncols F)).
  split; [reflexivity|].
  rewrite map_map, nth_map_seq by lia. rewrite class_rows_absent by exact Hcnt.
  unfold sum_dim0, smooth. cbn [fold_left]. rewrite !map_repeat. fold D.
  split.
  { destruct (ncols F) as [|V] eqn:EV; [reflexivity|].
    rewrite qdiv_nz; [reflexivity|].
    unfold D. rewrite qsum_repeat_zero, Qplus_0_l. intros E.
    apply Qmult_integral in E as [E|E]; [contradiction|].
    unfold Qeq in E. simpl in E. lia. }
  split; [apply repeat_length|].
  intros w Hw. rewrite (nth_indep _ 0%Q ((0 + delta) / D)%Q)
    by (rewrite repeat_length; exact Hw).
  unfold D. rewrite nth_repeat, qsum_repeat_zero, Qplus_0_l, Qplus_0_l.
  assert (HV : ~ (inject_Z (Z.of_nat (ncols F)) == 0)%Q).
  { intros E. unfold Qeq in E. simpl in E. lia. }
  unfold Qdiv. rewrite Qinv_mult_distr, Qmult_assoc, Qmult_inv_r by exact Hd.
  reflexivity.
Qed.

(** A model trained only on label 0 never produces a posterior vector,
    a prediction or probabilities: for a feature vector that broadcasts
    against the vocabulary the missing class 1 raises a [KeyError], for
    any other the product raises a [RuntimeError]. *)
Theorem single_class_model_fails (st st' : NaiveBayes) (F : tensor2) (labels : list nat)
    (delta : Q) (f : list Q) :
  tensor2_wf F -> fit st F labels delta = (Ok tt, st') -> list_max labels = 0 ->
  let e := if (length f =? ncols F) || (length f =? 1) || (ncols F =? 1)
           then "KeyError"%string else "RuntimeError"%string in
  estimate_class_posteriors st' f = Err e /\ predict st' f = Err e /\
  predict_proba st' f = Err e.
Proof.
  intros Hwf Hfit Hmax e. apply fit_ok_inv in Hfit as [Hne [Hlen ->]].
  assert (Hpri : length (estimate_class_priors labels) = 1).
  { rewrite estimate_class_priors_eq by exact Hne. rewrite length_map, length_seq, Hmax.
    reflexivity. }
  destruct (class_word_counts F labels 0 Hwf) as [Hl _].
  assert (Hest : estimate_class_posteriors (trained_model F labels delta) f = Err e).
  { unfold estimate_class_posteriors, trained_model. cbn [class_priors conditional_probabilities].
    rewrite Hpri, Hmax. cbn [seq map log_posteriors_loop]. unfold log_posterior.
    cbn [nth_error rbind]. unfold broadcast_mul. rewrite length_map.
    assert (Hs : length (smooth delta (ncols F) (sum_dim0 (ncols F) (class_rows F labels 0)))
                 = ncols F) by (unfold smooth; rewrite length_map; exact Hl).
    rewrite Hs. unfold e.
    destruct (length f =? ncols F), (length f =? 1), (ncols F =? 1); reflexivity. }
  destruct (trained_model_truthy F labels delta Hne) as [T1 T2].
  split; [exact Hest|]. unfold predict, predict_proba. rewrite T1, T2, Hest.
  split; reflexivity.
Qed.

(* ------------------------------------------------------------------ *)
(** ** Inference on a trained model *)

Lemma trained_posteriors (F : tensor2) (labels : list nat) (delta : Q) (f : list Q) :
  tensor2_wf F -> labels <> [] -> 1 <= list_max labels ->
  (length f = ncols F \/ length f = 1 \/ ncols F = 1) ->
  exists p0 p1,
    broadcast_mul f (map xlogQ (class_probs F labels delta 0)) = Ok p0 /\
    broadcast_mul f (map xlogQ (class_probs F labels delta 1)) = Ok p1 /\
    estimate_class_posteriors (trained_model F labels delta) f =
      Ok [xadd (xlog (nth 0 (estimate_class_priors labels) 0%Q)) (xsum p0);
          xadd (xlog (nth 1 (estimate_class_priors labels) 0%Q)) (xsum p1)].
Proof.
  intros Hwf Hne Hmax Hf.
  set (pri := estimate_class_priors labels).
  set (cps := map (smooth delta (ncols F))
                 (map (fun c => sum_dim0 (ncols F) (class_rows F labels c))
                      (seq 0 (S (list_max labels))))).
  assert (Hlp : forall c, c <= list_max labels ->
    exists p, broadcast_mul f (map xlogQ (class_probs F labels delta c)) = Ok p /\
              log_posterior pri cps f c = Ok (xadd (xlog (nth c pri 0%Q)) (xsum p))).
  { intros c Hc.
    destruct (broadcast_mul_ok f (map xlogQ (class_probs F labels delta c))) as [p Hp].
    { rewrite length_map. unfold class_probs, smooth. rewrite length_map.
      rewrite (proj1 (class_word_counts F labels c Hwf)). exact Hf. }
    exists p. split; [exact Hp|]. unfold log_posterior, cps.
    rewrite map_map, nth_error_map_seq by lia. cbn [rbind].
    fold (class_probs F labels delta c). rewrite Hp. reflexivity. }
  assert (Hpl : length pri = S (list_max labels)).
  { unfold pri. rewrite estimate_class_priors_eq by exact Hne.
    rewrite length_map, length_seq. reflexivity. }
  destruct (loop_all_ok pri cps f (seq 0 (length pri))) as [lps [Hl Hlen]].
  { intros c Hc. apply in_seq in Hc. destruct (Hlp c) as [p [_ Hp]]; [lia|]. eauto. }
  assert (Hk : forall k y, log_posterior pri cps f k = Ok y -> k <= list_max labels ->
                 nth_error lps k = Some y).
  { intros k y Hy Hk. destruct (nth_error lps k) as [y'|] eqn:E.
    - destruct (loop_ok_nth _ _ _ _ _ Hl k y' E) as [c [Hc Hy']].
      apply nth_error_seq_inv in Hc. simpl in Hc. subst c. congruence.
    - apply nth_error_None in E. rewrite Hlen, length_seq in E. lia. }
  destruct (Hlp 0) as [p0 [H0 L0]]; [lia|]. destruct (Hlp 1) as [p1 [H1 L1]]; [lia|].
  exists p0, p1. split; [exact H0|]. split; [exact H1|].
  unfold estimate_class_posteriors. cbn [trained_model class_priors conditional_probabilities].
  fold pri cps. rewrite Hl. cbn [rbind]. unfold dict_get.
  rewrite (Hk 0 _ L0), (Hk 1 _ L1) by lia. reflexivity.
Qed.

Lemma count_cw_nonneg (F : tensor2) (labels : list nat) (c w : nat) :
  features_nonneg F -> (0 <= count_cw F labels c w)%Q.
Proof.
  intros Hnonneg. unfold count_cw. apply qsum_map_nonneg. intros r Hr.
  apply class_rows_in in Hr. unfold features_nonneg in Hnonneg.
  rewrite List.Forall_forall in Hnonneg. specialize (Hnonneg r Hr).
  rewrite List.Forall_forall in Hnonneg.
  destruct (Nat.lt_ge_cases w (length r)) as [Hw|Hw].
  - apply Hnonneg. apply nth_In. exact Hw.
  - rewrite nth_overflow by exact Hw. apply Qle_refl.
Qed.

Lemma class_probs_pos (F : tensor2) (labels : list nat) (delta : Q) (c : nat) (e : xQ) :
  tensor2_wf F -> features_nonneg F -> (0 < delta)%Q ->
  In e (class_probs F labels delta c) -> exists q, e = QFin q /\ (0 < q)%Q.
Proof.
  intros Hwf Hnonneg Hdelta Hin.
  destruct (class_word_counts F labels c Hwf) as [Hl [Hn Hs]].
  unfold class_probs, smooth in Hin. apply in_map_iff in Hin as [x [<- Hx]].
  apply (In_nth _ _ 0%Q) in Hx as [w [Hw Hxw]]. rewrite Hl in Hw.
  assert (HD : (0 < qsum (sum_dim0 (ncols F) (class_rows F labels c))
                    + delta * inject_Z (Z.of_nat (ncols F)))%Q).
  { rewrite Hs. apply Qle_lt_trans with (y := (count_c F labels c + 0)%Q).
    - rewrite Qplus_0_r. unfold count_c. apply qsum_map_nonneg. intros w' _.
      apply count_cw_nonneg. exact Hnonneg.
    - rewrite Qplus_lt_r. apply Qmult_lt_0_compat; [exact Hdelta|].
      unfold Qlt. simpl. lia. }
  rewrite qdiv_nz by (intros E; rewrite E in HD; exact (Qlt_irrefl 0 HD)).
  eexists. split; [reflexivity|].
  unfold Qdiv. apply Qmult_lt_0_compat; [|apply Qinv_lt_0_compat; exact HD].
  rewrite <- Hxw, Hn by exact Hw.
  apply Qle_lt_trans with (y := (count_cw F labels c w + 0)%Q).
  - rewrite Qplus_0_r. apply count_cw_nonneg. exact Hnonneg.
  - rewrite Qplus_lt_r. exact Hdelta.
Qed.

Definition all_fin (v : list xR) : Prop := forall x, In x v -> exists r, x = Fin r.

Lemma xlog_all_fin (l : list xQ) :
  (forall e, In e l -> exists q, e = QFin q /\ (0 < q)%Q) -> all_fin (map xlogQ l).
Proof.
  intros H x Hx. apply in_map_iff in Hx as [e [<- He]].
  destruct (H e He) as [q [-> Hq]]. cbn [xlogQ].
  rewrite xlog_pos by exact Hq. eexists. reflexivity.
Qed.

Lemma broadcast_all_fin (f : list Q) (t p : list xR) :
  all_fin t -> broadcast_mul f t = Ok p -> all_fin p.
Proof.
  intros Ht. unfold broadcast_mul.
  destruct (Nat.eqb (length f) (length t)) eqn:E1.
  { intros H. injection H as <-. intros y Hy. apply in_map_iff in Hy as [[a x] [<- Hax]].
    apply in_combine_r in Hax. destruct (Ht x Hax) as [r ->]. simpl. eauto. }
  destruct (Nat.eqb (length f) 1) eqn:E2.
  { intros H. injection H as <-. intros y Hy. apply in_map_iff in Hy as [x [<- Hx]].
    destruct (Ht x Hx) as [r ->]. simpl. eauto. }
  destruct (Nat.eqb (length t) 1) eqn:E3; [|discriminate].
  intros H. injection H as <-. intros y Hy. apply in_map_iff in Hy as [a [<- _]].
  destruct t as [|x t]; [discriminate|]. destruct (Ht x (or_introl eq_refl)) as [r ->].
  simpl. eauto.
Qed.

Lemma xsum_all_fin (p : list xR) : all_fin p -> exists r, xsum p = Fin r.
Proof.
  induction p as [|x p IH]; intros H; [exists 0%R; reflexivity|].
  destruct (H x (or_introl eq_refl)) as [r ->].
  destruct IH as [s Hs]; [intros y Hy; apply H; right; exact Hy|].
  unfold xsum in *. simpl. rewrite Hs. eexists. reflexivity.
Qed.

(** With [delta > 0] and non-negative features, both log-likelihoods are
    finite reals. *)
Lemma trained_posteriors_fin (F : tensor2) (labels : list nat) (delta : Q) (f : list Q) :
  tensor2_wf F -> features_nonneg F -> (0 < delta)%Q -> labels <> [] ->
  1 <= list_max labels -> (length f = ncols F \/ length f = 1 \/ ncols F = 1) ->
  exists L0 L1,
    estimate_class_posteriors (trained_model F labels delta) f =
      Ok [xadd (xlog (nth 0 (estimate_class_priors labels) 0%Q)) (Fin L0);
          xadd (xlog (nth 1 (estimate_class_priors labels) 0%Q)) (Fin L1)].
Proof.
  intros Hwf Hnn Hd Hne Hmax Hf.
  destruct (trained_posteriors F labels delta f Hwf Hne Hmax Hf) as [p0 [p1 [H0 [H1 ->]]]].
  assert (Hfin : forall c p, broadcast_mul f (map xlogQ (class_probs F labels delta c)) = Ok p ->
                   exists r, xsum p = Fin r).
  { intros c p Hp. apply xsum_all_fin. apply (broadcast_all_fin f (map xlogQ (class_probs F labels delta c)) p); [|exact Hp].
    apply xlog_all_fin. intros q Hq. exact (class_probs_pos F labels delta c q Hwf Hnn Hd Hq). }
  destruct (Hfin 0 p0 H0) as [L0 ->]. destruct (Hfin 1 p1 H1) as [L1 ->]. eauto.
Qed.

Lemma injn_pos (n : nat) : 0 < n -> (0 < injn n)%Q.
Proof. intros H. unfold injn, Qlt. simpl. lia. Qed.

Lemma prior_nth (labels : list nat) (c : nat) :
  labels <> [] -> c <= list_max labels ->
  nth c (estimate_class_priors labels) 0%Q =
  (injn (count_occ Nat.eq_dec labels c) / injn (length labels))%Q.
Proof.
  intros Hne Hc. rewrite estimate_class_priors_eq by exact Hne.
  rewrite nth_map_seq by lia. reflexivity.
Qed.

Lemma xlog_prior_zero (labels : list nat) (c : nat) :
  labels <> [] -> c <= list_max labels -> count_occ Nat.eq_dec labels c = 0 ->
  xlog (nth c (estimate_class_priors labels) 0%Q) = NInf.
Proof.
  intros Hne Hc H0. rewrite prior_nth by assumption. rewrite H0.
  assert (E : (injn 0 / injn (length labels) == 0)%Q).
  { unfold Qdiv. apply Qmult_0_l. }
  unfold xlog. destruct (Qlt_le_dec 0 _) as [Hlt|_].
  - rewrite E in Hlt. exfalso. exact (Qlt_irrefl 0 Hlt).
  - apply Qeq_bool_iff in E. rewrite E. reflexivity.
Qed.

Lemma length_pos {A} (l : list A) : l <> [] -> 0 < length l.
Proof. destruct l; [congruence|simpl; lia]. Qed.

Lemma xlog_prior_pos (labels : list nat) (c : nat) :
  labels <> [] -> c <= list_max labels -> 0 < count_occ Nat.eq_dec labels c ->
  xlog (nth c (estimate_class_priors labels) 0%Q) =
  Fin (ln (Q2R (injn (count_occ Nat.eq_dec labels c) / injn (length labels)))).
Proof.
  intros Hne Hc Hpos. rewrite prior_nth by assumption. apply xlog_pos.
  unfold Qdiv. apply Qmult_lt_0_compat; [apply injn_pos; exact Hpos|].
  apply Qinv_lt_0_compat. apply injn_pos. apply length_pos. exact Hne.
Qed.

Lemma ln_prior_lt (n0 n1 N : nat) :
  0 < n0 -> n0 < n1 -> 0 < N ->
  (ln (Q2R (injn n0 / injn N)) < ln (Q2R (injn n1 / injn N)))%R.
Proof.
  intros H0 H01 HN. apply ln_increasing.
  - rewrite <- Q2R_0. apply Qlt_Rlt. unfold Qdiv.
    apply Qmult_lt_0_compat; [apply injn_pos; exact H0|].
    apply Qinv_lt_0_compat. apply injn_pos. exact HN.
  - apply Qlt_Rlt. unfold Qdiv. apply Qmult_lt_compat_r.
    + apply Qinv_lt_0_compat. apply injn_pos. exact HN.
    + unfold injn, Qlt. simpl. lia.
Qed.

Lemma estimate_ok_truthy (st : NaiveBayes) (f : list Q) (v : list xR) :
  estimate_class_posteriors st f = Ok v ->
  truthy (class_priors st) = true /\ truthy (conditional_probabilities st) = true.
Proof.
  intros H. destruct (estimate_shape st f v H) as [pri [cp [p0 [p1 [Hp [Hc [_ [L0 _]]]]]]]].
  rewrite Hp, Hc. destruct cp as [|x cp]; [unfold log_posterior in L0; simpl in L0; discriminate|].
  destruct pri as [|y pri]; [|split; reflexivity].
  exfalso. unfold estimate_class_posteriors in H. rewrite Hp, Hc in H. simpl in H. discriminate.
Qed.

Lemma predict_of_estimate (st : NaiveBayes) (f : list Q) (v : list xR) :
  estimate_class_posteriors st f = Ok v ->
  predict st f = torch_argmax v /\ predict_proba st f = Ok (softmax v).
Proof.
  intros H. destruct (estimate_ok_truthy st f v H) as [T1 T2].
  unfold predict, predict_proba. rewrite T1, T2, H. split; reflexivity.
Qed.

Lemma softmax_fin2 (a b : R) :
  softmax [Fin a; Fin b] =
  [Fin (exp a / (exp a + exp b)); Fin (exp b / (exp a + exp b))]%R.
Proof.
  unfold softmax. cbn [tl hd fold_left]. unfold xmax. cbn [is_nan orb].
  assert (Hm : exists m, (if xlt (Fin a) (Fin b) then Fin b else Fin a) = Fin m).
  { destruct (xlt (Fin a) (Fin b)); eauto. }
  destruct Hm as [m ->]. unfold xsum. cbn [map fold_right xneg xadd xexp].
  pose proof (exp_pos a) as Ha. pose proof (exp_pos b) as Hb.
  pose proof (exp_pos (- m)) as Hm.
  rewrite !exp_plus. unfold xdiv.
  destruct (Req_EM_T (exp a * exp (- m) + (exp b * exp (- m) + 0)) 0) as [E|E].
  - exfalso. pose proof (Rmult_lt_0_compat _ _ Ha Hm).
    pose proof (Rmult_lt_0_compat _ _ Hb Hm). lra.
  - assert (Hs : (exp a + exp b <> 0)%R) by lra.
    assert (Hm0 : (exp (- m) <> 0)%R) by lra.
    assert (E' : (exp a * exp (- m) + exp b * exp (- m) <> 0)%R) by lra.
    apply f_equal2; [apply f_equal; field; split; assumption|].
    apply f_equal2; [apply f_equal; field; split; assumption|reflexivity].
Qed.

Lemma softmax_fin_ninf (a : R) : softmax [Fin a; NInf] = [Fin 1; Fin 0].
Proof.
  unfold softmax. cbn [tl hd fold_left]. unfold xmax. cbn [is_nan orb xlt].
  unfold xsum. cbn [map fold_right xneg xadd xexp].
  rewrite Rplus_opp_r, exp_0. unfold xdiv.
  destruct (Req_EM_T (1 + (0 + 0)) 0) as [E|E]; [lra|].
  apply f_equal2; [apply f_equal; field; lra|].
  apply f_equal2; [apply f_equal; field; lra|reflexivity].
Qed.

Lemma softmax_ninf_fin (b : R) : softmax [NInf; Fin b] = [Fin 0; Fin 1].
Proof.
  unfold softmax. cbn [tl hd fold_left]. unfold xmax. cbn [is_nan orb xlt].
  unfold xsum. cbn [map fold_right xneg xadd xexp].
  rewrite Rplus_opp_r, exp_0. unfold xdiv.
  destruct (Req_EM_T (0 + (1 + 0)) 0) as [E|E]; [lra|].
  apply f_equal2; [apply f_equal; field; lra|].
  apply f_equal2; [apply f_equal; field; lra|reflexivity].
Qed.

Lemma softmax_ninf_ninf : softmax [NInf; NInf] = [NaN; NaN].
Proof. reflexivity. Qed.

Lemma broadcast_zero_sum (n : nat) (t p : list xR) :
  all_fin t -> length t = n -> broadcast_mul (repeat 0%Q n) t = Ok p -> xsum p = Fin 0.
Proof.
  intros Ht Hl. unfold broadcast_mul. rewrite repeat_length, Hl, Nat.eqb_refl.
  intros H. injection H as <-. subst n.
  induction t as [|x t IH]; [reflexivity|].
  destruct (Ht x (or_introl eq_refl)) as [r ->]. cbn [length repeat combine map].
  unfold xsum in *. cbn [fold_right]. rewrite IH by (intros y Hy; apply Ht; right; exact Hy).
  cbn [xmul xadd]. rewrite Q2R_0, Rmult_0_l, Rplus_0_l. reflexivity.
Qed.

(** [predict_proba] is the softmax of the two log-posteriors: when both
    are finite reals [a] and [b] it returns
    [[exp a / (exp a + exp b), exp b / (exp a + exp b)]], and [predict]
    returns the class of the larger one, 0 on a tie. *)
Theorem predict_proba_softmax (st : NaiveBayes) (f : list Q) (a b : R) :
  estimate_class_posteriors st f = Ok [Fin a; Fin b] ->
  predict_proba st f = Ok [Fin (exp a / (exp a + exp b)); Fin (exp b / (exp a + exp b))]%R /\
  (((a < b)%R /\ predict st f = Ok 1) \/ ((b <= a)%R /\ predict st f = Ok 0)).
Proof.
  intros H. destruct (predict_of_estimate st f _ H) as [P1 P2].
  rewrite P2, softmax_fin2. split; [reflexivity|].
  rewrite P1. simpl. destruct (Rlt_dec a b) as [Hab|Hab]; [left|right]; split; auto; lra.
Qed.

(** A class among 0 and 1 without training examples has prior 0, hence
    log-prior [-inf]: on a model trained with [delta > 0] on
    non-negative features, for every feature vector that broadcasts,
    [predict] returns the other class with probability 1 when exactly
    one of the two classes is missing, and when both are missing
    [predict_proba] returns [[nan, nan]] while [predict] returns 0. *)
Theorem predict_unseen_classes (st st' : NaiveBayes) (F : tensor2) (labels : list nat)
    (delta : Q) (f : list Q) :
  tensor2_wf F -> features_nonneg F -> (0 < delta)%Q ->
  fit st F labels delta = (Ok tt, st') -> 1 <= list_max labels ->
  (length f = ncols F \/ length f = 1 \/ ncols F = 1) ->
  (count_occ Nat.eq_dec labels 1 = 0 -> 0 < count_occ Nat.eq_dec labels 0 ->
     predict st' f = Ok 0 /\ predict_proba st' f = Ok [Fin 1; Fin 0]) /\
  (count_occ Nat.eq_dec labels 0 = 0 -> 0 < count_occ Nat.eq_dec labels 1 ->
     predict st' f = Ok 1 /\ predict_proba st' f = Ok [Fin 0; Fin 1]) /\
  (count_occ Nat.eq_dec labels 0 = 0 -> count_occ Nat.eq_dec labels 1 = 0 ->
     predict st' f = Ok 0 /\ predict_proba st' f = Ok [NaN; NaN]).
Proof.
  intros Hwf Hnn Hd Hfit Hmax Hf. apply fit_ok_inv in Hfit as [Hne [_ ->]].
  destruct (trained_posteriors_fin F labels delta f Hwf Hnn Hd Hne Hmax Hf) as [L0 [L1 HE]].
  split; [|split].
  - intros C1 C0.
    rewrite (xlog_prior_pos labels 0), (xlog_prior_zero labels 1) in HE by (lia || assumption).
    cbn [xadd] in HE. destruct (predict_of_estimate _ _ _ HE) as [-> ->].
    rewrite softmax_fin_ninf. split; reflexivity.
  - intros C0 C1.
    rewrite (xlog_prior_zero labels 0), (xlog_prior_pos labels 1) in HE by (lia || assumption).
    cbn [xadd] in HE. destruct (predict_of_estimate _ _ _ HE) as [-> ->].
    rewrite softmax_ninf_fin. split; reflexivity.
  - intros C0 C1.
    rewrite (xlog_prior_zero labels 0), (xlog_prior_zero labels 1) in HE by (lia || assumption).
    cbn [xadd] in HE. destruct (predict_of_estimate _ _ _ HE) as [-> ->].
    rewrite softmax_ninf_ninf. split; reflexivity.
Qed.

(** An all-zero feature vector (a document with no word of the
    vocabulary) has log-likelihood 0 in every class, so on a model
    trained with [delta > 0] on non-negative features [predict] follows
    the class counts alone: class 1 exactly when it has more examples
    than class 0; when both occur, [predict_proba] returns their priors
    renormalised over the two classes. *)
Theorem predict_empty_document (st st' : NaiveBayes) (F : tensor2) (labels : list nat)
    (delta : Q) :
  tensor2_wf F -> features_nonneg F -> (0 < delta)%Q ->
  fit st F labels delta = (Ok tt, st') -> 1 <= list_max labels ->
  predict st' (repeat 0%Q (ncols F)) =
    Ok (if count_occ Nat.eq_dec labels 0 <? count_occ Nat.eq_dec labels 1 then 1 else 0) /\
  (0 < count_occ Nat.eq_dec labels 0 -> 0 < count_occ Nat.eq_dec labels 1 ->
   let p0 := Q2R (nth 0 (estimate_class_priors labels) 0%Q) in
   let p1 := Q2R (nth 1 (estimate_class_priors labels) 0%Q) in
   predict_proba st' (repeat 0%Q (ncols F)) = Ok [Fin (p0 / (p0 + p1)); Fin (p1 / (p0 + p1))]%R).
Proof.
  intros Hwf Hnn Hd Hfit Hmax. apply fit_ok_inv in Hfit as [Hne [_ ->]].
  destruct (trained_posteriors F labels delta (repeat 0%Q (ncols F)) Hwf Hne Hmax)
    as [p0 [p1 [H0 [H1 HE]]]]; [left; apply repeat_length|].
  assert (Hz : forall c p, broadcast_mul (repeat 0%Q (ncols F))
                             (map xlogQ (class_probs F labels delta c)) = Ok p ->
                           xsum p = Fin 0).
  { intros c p Hp. apply (broadcast_zero_sum (ncols F) (map xlogQ (class_probs F labels delta c)));
      [| |exact Hp].
    - apply xlog_all_fin. intros q Hq. exact (class_probs_pos F labels delta c q Hwf Hnn Hd Hq).
    - rewrite length_map. unfold class_probs, smooth. rewrite length_map.
      exact (proj1 (class_word_counts F labels c Hwf)). }
  rewrite (Hz 0 p0 H0), (Hz 1 p1 H1) in HE.
  destruct (predict_of_estimate _ _ _ HE) as [P1 P2].
  pose proof (length_pos labels Hne) as HN.
  set (n0 := count_occ Nat.eq_dec labels 0) in *.
  set (n1 := count_occ Nat.eq_dec labels 1) in *.
  split.
  - rewrite P1.
    destruct (Nat.eq_dec n0 0) as [Z0|Z0]; destruct (Nat.eq_dec n1 0) as [Z1|Z1].
    + rewrite (xlog_prior_zero labels 0), (xlog_prior_zero labels 1) by (lia || assumption).
      rewrite Z0, Z1. reflexivity.
    + rewrite (xlog_prior_zero labels 0), (xlog_prior_pos labels 1) by (lia || assumption).
      rewrite Z0. destruct n1 as [|n1']; [lia|]. reflexivity.
    + rewrite (xlog_prior_pos labels 0), (xlog_prior_zero labels 1) by (lia || assumption).
      rewrite Z1. destruct (n0 <? 0) eqn:E; [apply Nat.ltb_lt in E; lia|]. reflexivity.
    + rewrite (xlog_prior_pos labels 0), (xlog_prior_pos labels 1) by (lia || assumption).
      cbn [torch_argmax argmax_loop xadd xlt].
      fold n0 n1.
      destruct (Nat.lt_trichotomy n0 n1) as [Hlt|[Heq|Hgt]].
      * pose proof (ln_prior_lt n0 n1 (length labels) ltac:(lia) Hlt HN).
        destruct (Rlt_dec _ _) as [_|Hn]; [|lra].
        apply Nat.ltb_lt in Hlt. rewrite Hlt. reflexivity.
      * rewrite Heq. destruct (Rlt_dec _ _) as [Hn|_]; [lra|].
        rewrite Nat.ltb_irrefl. reflexivity.
      * pose proof (ln_prior_lt n1 n0 (length labels) ltac:(lia) Hgt HN).
        destruct (Rlt_dec _ _) as [Hn|_]; [lra|].
        destruct (n0 <? n1) eqn:E; [apply Nat.ltb_lt in E; lia|]. reflexivity.
  - intros Q0 Q1 p0' p1'. rewrite P2.
    rewrite (xlog_prior_pos labels 0), (xlog_prior_pos labels 1) by (lia || assumption).
    cbn [xadd]. rewrite softmax_fin2, !Rplus_0_r.
    unfold p0', p1'. rewrite (prior_nth labels 0), (prior_nth labels 1) by (lia || assumption).
    fold n0 n1.
    assert (Hq : forall n, 0 < n -> (0 < Q2R (injn n / injn (length labels)))%R).
    { intros n Hn. rewrite <- Q2R_0. apply Qlt_Rlt. unfold Qdiv.
      apply Qmult_lt_0_compat; [apply injn_pos; exact Hn|].
      apply Qinv_lt_0_compat. apply injn_pos. exact HN. }
    rewrite !exp_ln by (apply Hq; assumption). reflexivity.
Qed.

(* ------------------------------------------------------------------ *)
(** ** Instances on small inputs *)

(** A file of two lines: ["g<TAB>1"] and ["ab"], with a tokenizer that
    returns no token and [int] defined on ["0"] and ["1"]. *)
Lemma read_sentiment_examples_sound_witness :
  In {| words := []; label := 1%Z |}
     (fst (read_sentiment_examples (fun _ => [])
             (fun s => match s with [48%Z] => Some 0%Z | [49%Z] => Some 1%Z | _ => None end)
             [[103; 9; 49]; [97; 98]]%Z)) /\
  exists line text label_str,
    In line [[103; 9; 49]; [97; 98]]%Z /\ py_strip line = text ++ 9%Z :: label_str /\
    ~ In 9%Z text /\ ~ In 9%Z label_str /\
    (fun s => match s with [48%Z] => Some 0%Z | [49%Z] => Some 1%Z | _ => None end)
      label_str = Some 1%Z /\
    ([] : list string) = (fun _ => []) text.
Proof.
  split; [vm_compute; left; reflexivity|].
  apply (read_sentiment_examples_sound (fun _ => [])
           (fun s => match s with [48%Z] => Some 0%Z | [49%Z] => Some 1%Z | _ => None end)
           [[103; 9; 49]; [97; 98]]%Z {| words := []; label := 1%Z |}).
  vm_compute. left. reflexivity.
Defined.

Lemma read_sentiment_examples_messages_witness :
  In (MalformedLine [97; 98]%Z)
     (snd (read_sentiment_examples (fun _ => [])
             (fun s => match s with [48%Z] => Some 0%Z | [49%Z] => Some 1%Z | _ => None end)
             [[103; 9; 49]; [97; 98]]%Z)) /\
  message_justified
    (fun s => match s with [48%Z] => Some 0%Z | [49%Z] => Some 1%Z | _ => None end)
    [[103; 9; 49]; [97; 98]]%Z (MalformedLine [97; 98]%Z).
Proof.
  split; [vm_compute; left; reflexivity|].
  apply (read_sentiment_examples_messages (fun _ => [])
           (fun s => match s with [48%Z] => Some 0%Z | [49%Z] => Some 1%Z | _ => None end)
           [[103; 9; 49]; [97; 98]]%Z (MalformedLine [97; 98]%Z)).
  vm_compute. left. reflexivity.
Defined.

Lemma c4_vocab_in_range (text : list string) :
  indices_in_range (build_vocab c4_examples) text.
Proof. intros t i _ Hi. exact (proj1 (build_vocab_wf c4_examples) t i Hi). Qed.

Lemma bag_of_words_count_mode_witness :
  indices_in_range (build_vocab c4_examples) ["good"; "bad"; "good"; "film"]%string /\
  bag_of_words ["good"; "bad"; "good"; "film"]%string (build_vocab c4_examples) false =
  Ok (map (fun i => injn (count_index (build_vocab c4_examples)
                            ["good"; "bad"; "good"; "film"]%string i))
          (seq 0 (size (build_vocab c4_examples)))).
Proof.
  split; [apply c4_vocab_in_range|].
  apply (bag_of_words_count_mode ["good"; "bad"; "good"; "film"]%string (build_vocab c4_examples)).
  apply c4_vocab_in_range.
Defined.

Lemma bag_of_words_binary_mode_witness :
  indices_in_range (build_vocab c4_examples) ["good"; "bad"; "good"; "film"]%string /\
  bag_of_words ["good"; "bad"; "good"; "film"]%string (build_vocab c4_examples) true =
  Ok (map (fun i => if existsb (fun t => bool_decide (build_vocab c4_examples !! t = Some i))
                         ["good"; "bad"; "good"; "film"]%string
                    then 1%Q else 0%Q) (seq 0 (size (build_vocab c4_examples)))).
Proof.
  split; [apply c4_vocab_in_range|].
  apply (bag_of_words_binary_mode ["good"; "bad"; "good"; "film"]%string (build_vocab c4_examples)).
  apply c4_vocab_in_range.
Defined.

Lemma bag_of_words_count_app_witness :
  indices_in_range (build_vocab c4_examples) (["good"; "bad"]%string ++ ["good"; "film"]%string) /\
  exists v1 v2 v,
    bag_of_words ["good"; "bad"]%string (build_vocab c4_examples) false = Ok v1 /\
    bag_of_words ["good"; "film"]%string (build_vocab c4_examples) false = Ok v2 /\
    bag_of_words (["good"; "bad"]%string ++ ["good"; "film"]%string) (build_vocab c4_examples) false
      = Ok v /\
    length v = size (build_vocab c4_examples) /\
    forall i, (nth i v 0 == nth i v1 0 + nth i v2 0)%Q.
Proof.
  split; [apply c4_vocab_in_range|].
  apply (bag_of_words_count_app ["good"; "bad"]%string ["good"; "film"]%string
           (build_vocab c4_examples)).
  apply c4_vocab_in_range.
Defined.

Lemma bag_of_words_count_total_witness :
  indices_in_range (build_vocab c4_examples) ["good"; "bad"; "good"; "film"]%string /\
  exists v, bag_of_words ["good"; "bad"; "good"; "film"]%string (build_vocab c4_examples) false
              = Ok v /\
    (qsum v == injn (length (List.filter (in_vocab (build_vocab c4_examples))
                               ["good"; "bad"; "good"; "film"]%string)))%Q.
Proof.
  split; [apply c4_vocab_in_range|].
  apply (bag_of_words_count_total ["good"; "bad"; "good"; "film"]%string (build_vocab c4_examples)).
  apply c4_vocab_in_range.
Defined.

(** Three labels for the two rows of the running example. *)
Lemma fit_mismatch_state_witness :
  [1; 0; 1]%nat <> [] /\ length [1; 0; 1]%nat <> length (rows c4_features) /\
  fit NaiveBayes_init c4_features [1; 0; 1]%nat 1%Q =
    (Err "IndexError"%string,
     {| class_priors := Some (estimate_class_priors [1; 0; 1]%nat);
        conditional_probabilities := conditional_probabilities NaiveBayes_init;
        vocab_size := Some (ncols c4_features) |}).
Proof.
  split; [discriminate|]. split; [simpl; lia|].
  apply (fit_mismatch_state NaiveBayes_init c4_features [1; 0; 1]%nat 1%Q);
    [discriminate|simpl; lia].
Defined.

Lemma c4_features_nonneg : features_nonneg c4_features.
Proof. unfold features_nonneg. repeat constructor; unfold Qle; simpl; lia. Qed.

(** The running example relabelled [[2, 0]]: class 1 has no example. *)
Lemma c4u_fit_eq :
  fit NaiveBayes_init c4_features [2; 0]%nat 1%Q
  = (Ok tt, snd (fit NaiveBayes_init c4_features [2; 0]%nat 1%Q)).
Proof. vm_compute. reflexivity. Qed.

Lemma fit_unseen_class_uniform_witness :
  fit NaiveBayes_init c4_features [2; 0]%nat 1%Q
    = (Ok tt, snd (fit NaiveBayes_init c4_features [2; 0]%nat 1%Q)) /\
  1 <= list_max [2; 0]%nat /\ count_occ Nat.eq_dec [2; 0]%nat 1 = 0 /\ ~ (1 == 0)%Q /\
  exists cp ps,
    conditional_probabilities (snd (fit NaiveBayes_init c4_features [2; 0]%nat 1%Q)) = Some cp /\
    nth 1 cp [] = map QFin ps /\ length ps = ncols c4_features /\
    forall w, w < ncols c4_features ->
      (nth w ps 0 == 1 / inject_Z (Z.of_nat (ncols c4_features)))%Q.
Proof.
  split; [exact c4u_fit_eq|]. split; [simpl; lia|]. split; [reflexivity|].
  split; [discriminate|].
  apply (fit_unseen_class_uniform NaiveBayes_init
           (snd (fit NaiveBayes_init c4_features [2; 0]%nat 1%Q)) c4_features [2; 0]%nat 1%Q 1).
  - exact c4u_fit_eq.
  - simpl; lia.
  - reflexivity.
  - discriminate.
Defined.

(** The running example trained on the labels [[0, 0]]. *)
Lemma c4z_fit_eq :
  fit NaiveBayes_init c4_features [0; 0]%nat 1%Q
  = (Ok tt, snd (fit NaiveBayes_init c4_features [0; 0]%nat 1%Q)).
Proof. vm_compute. reflexivity. Qed.

Lemma single_class_model_fails_witness :
  tensor2_wf c4_features /\
  fit NaiveBayes_init c4_features [0; 0]%nat 1%Q
    = (Ok tt, snd (fit NaiveBayes_init c4_features [0; 0]%nat 1%Q)) /\
  list_max [0; 0]%nat = 0 /\
  let st' := snd (fit NaiveBayes_init c4_features [0; 0]%nat 1%Q) in
  let e := if (length [0; 0; 1]%Q =? ncols c4_features) || (length [0; 0; 1]%Q =? 1)
              || (ncols c4_features =? 1)
           then "KeyError"%string else "RuntimeError"%string in
  estimate_class_posteriors st' [0; 0; 1]%Q = Err e /\ predict st' [0; 0; 1]%Q = Err e /\
  predict_proba st' [0; 0; 1]%Q = Err e.
Proof.
  split; [exact c4_features_wf|]. split; [exact c4z_fit_eq|]. split; [reflexivity|].
  exact (single_class_model_fails NaiveBayes_init
           (snd (fit NaiveBayes_init c4_features [0; 0]%nat 1%Q)) c4_features [0; 0]%nat 1%Q
           [0; 0; 1]%Q c4_features_wf c4z_fit_eq eq_refl).
Defined.

Lemma predict_proba_softmax_witness :
  exists a b,
    estimate_class_posteriors c4_model [0; 0; 1]%Q = Ok [Fin a; Fin b] /\
    predict_proba c4_model [0; 0; 1]%Q =
      Ok [Fin (exp a / (exp a + exp b)); Fin (exp b / (exp a + exp b))]%R /\
    (((a < b)%R /\ predict c4_model [0; 0; 1]%Q = Ok 1) \/
     ((b <= a)%R /\ predict c4_model [0; 0; 1]%Q = Ok 0)).
Proof.
  do 2 eexists. split; [exact c4_posteriors|].
  exact (predict_proba_softmax c4_model [0; 0; 1]%Q _ _ c4_posteriors).
Defined.

(** Class 1 is missing from the labels [[2, 0]]: the document [["bad"]]
    is predicted as class 0 with probability 1. *)
Lemma predict_unseen_classes_witness :
  count_occ Nat.eq_dec [2; 0]%nat 1 = 0 /\ 0 < count_occ Nat.eq_dec [2; 0]%nat 0 /\
  predict (snd (fit NaiveBayes_init c4_features [2; 0]%nat 1%Q)) [0; 0; 1]%Q = Ok 0 /\
  predict_proba (snd (fit NaiveBayes_init c4_features [2; 0]%nat 1%Q)) [0; 0; 1]%Q
    = Ok [Fin 1; Fin 0].
Proof.
  split; [reflexivity|]. split; [simpl; lia|].
  apply (predict_unseen_classes NaiveBayes_init
           (snd (fit NaiveBayes_init c4_features [2; 0]%nat 1%Q)) c4_features [2; 0]%nat 1%Q
           [0; 0; 1]%Q).
  - exact c4_features_wf.
  - exact c4_features_nonneg.
  - reflexivity.
  - exact c4u_fit_eq.
  - simpl; lia.
  - left; reflexivity.
  - reflexivity.
  - simpl; lia.
Defined.

Lemma predict_empty_document_witness :
  1 <= list_max [1; 0]%nat /\
  predict c4_model (repeat 0%Q (ncols c4_features)) =
    Ok (if count_occ Nat.eq_dec [1; 0]%nat 0 <? count_occ Nat.eq_dec [1; 0]%nat 1 then 1 else 0).
Proof.
  split; [simpl; lia|].
  apply (predict_empty_document NaiveBayes_init c4_model c4_features [1; 0]%nat 1%Q).
  - exact c4_features_wf.
  - exact c4_features_nonneg.
  - reflexivity.
  - exact c4_fit_eq.
  - simpl; lia.
Defined.
